(** * awslimitchecker Prometheus exporter (prometheus.py): a shallow embedding

    The exporter polls a usage checker per region and republishes limits and
    usage as labelled gauges.  This development embeds the functions of
    [prometheus.py] and proves the properties its specification states about
    path normalisation, the gauge registry, the usage translator, the
    per-region failure isolation and the override parser.

    Strings.  A Python [str] is a sequence of code points.  It is modelled by
    [string], each [ascii] standing for the code point of the same number
    (U+0000 to U+00FF); text outside that range is outside the model. *)

From Stdlib Require Import ZArith Ascii String List Lia Permutation.
From stdpp Require Import base option gmap strings list fin_maps sorting.

Local Open Scope Z_scope.

(** ** Python string builtins used by the source *)

Module Py.

(** The exceptions the exporter can meet.  All are subclasses of Python's
    [Exception]; [Backend] carries the message of an error raised by the
    usage checker. *)
Inductive exn : Type :=
| IndexError
| ValueError
| StopIteration
| Backend (msg : string).

Definition code (c : ascii) : N := N_of_ascii c.

(** [str.lower] on one code point below 256: A-Z, and the Latin-1 capitals
    U+00C0-U+00DE except the multiplication sign U+00D7, move up by 32. *)
Definition is_upper (c : ascii) : bool :=
  let n := code c in
  ((65 <=? n) && (n <=? 90) ||
   (192 <=? n) && (n <=? 222) && negb (n =? 215))%N.

Definition lower_char (c : ascii) : ascii :=
  if is_upper c then ascii_of_N (code c + 32) else c.

Fixpoint lower (s : string) : string :=
  match s with
  | EmptyString => EmptyString
  | String c r => String (lower_char c) (lower r)
  end.

(** A translation table as [str.maketrans] builds it: a dictionary from a
    character to its replacement, [None] meaning that the character is
    deleted.  A later entry for the same key replaces an earlier one. *)
Definition table := list (ascii * option ascii).

Fixpoint table_get (t : table) (c : ascii) : option (option ascii) :=
  match t with
  | [] => None
  | (k, v) :: t' => if Ascii.eqb k c then Some v else table_get t' c
  end.

Fixpoint table_set (t : table) (k : ascii) (v : option ascii) : table :=
  match t with
  | [] => [(k, v)]
  | (k', v') :: t' =>
      if Ascii.eqb k' k then (k, v) :: t' else (k', v') :: table_set t' k v
  end.

Fixpoint zip_chars (x y : string) : list (ascii * option ascii) :=
  match x, y with
  | String a x', String b y' => (a, Some b) :: zip_chars x' y'
  | _, _ => []
  end.

Fixpoint deleted_chars (z : string) : list (ascii * option ascii) :=
  match z with
  | EmptyString => []
  | String a z' => (a, None) :: deleted_chars z'
  end.

(** [str.maketrans(x, y, z)] for [x] and [y] of equal length. *)
Definition maketrans (x y z : string) : table :=
  fold_left (fun t kv => table_set t (fst kv) (snd kv))
            (zip_chars x y ++ deleted_chars z) [].

(** [s.translate(t)]: one pass, left to right; a character without an entry
    is kept. *)
Fixpoint translate (t : table) (s : string) : string :=
  match s with
  | EmptyString => EmptyString
  | String c r =>
      match table_get t c with
      | Some (Some d) => String d (translate t r)
      | Some None => translate t r
      | None => String c (translate t r)
      end
  end.

(** [sep.join(parts)]. *)
Fixpoint join (sep : string) (parts : list string) : string :=
  match parts with
  | [] => EmptyString
  | [p] => p
  | p :: ps => p +:+ sep +:+ join sep ps
  end.

(** [s.split(sep)] for a separator of one character: the fields between
    the occurrences of [sep]; never an empty list. *)
Fixpoint split (sep : ascii) (s : string) : list string :=
  match s with
  | EmptyString => [EmptyString]
  | String c r =>
      if Ascii.eqb c sep then EmptyString :: split sep r
      else match split sep r with
           | f :: fs => String c f :: fs
           | [] => [String c EmptyString]
           end
  end.

(** [sub in s]: substring test. *)
Fixpoint contains (sub s : string) : bool :=
  String.prefix sub s ||
  match s with
  | EmptyString => false
  | String _ r => contains sub r
  end.

(** [l[i]] on a list: [IndexError] out of range (indices here are never
    negative). *)
Definition index {A} (l : list A) (i : nat) : exn + A :=
  match nth_error l i with
  | Some x => inr x
  | None => inl IndexError
  end.

(** *** [int(s)] in base 10

    Optional white space, an optional sign, decimal digits in which single
    underscores may separate digits, optional white space.  White space is
    what the interpreter accepts there in this range of code points: tab to
    carriage return, space, U+0085 and U+00A0.  The interpreter's
    configurable cap on the number of digits is not modelled. *)
Definition is_space (c : ascii) : bool :=
  let n := code c in
  ((9 <=? n) && (n <=? 13) || (n =? 32) || (n =? 133) || (n =? 160))%N.

Definition digit_of (c : ascii) : option Z :=
  let n := code c in
  if ((48 <=? n) && (n <=? 57))%N then Some (Z.of_N n - 48) else None.

Fixpoint lstrip (s : string) : string :=
  match s with
  | String c r => if is_space c then lstrip r else s
  | EmptyString => EmptyString
  end.

Fixpoint all_space (s : string) : bool :=
  match s with
  | EmptyString => true
  | String c r => is_space c && all_space r
  end.

(** The digits after the first one: [acc] is the value read so far and
    [after_us] tells that the previous character was an underscore. *)
Fixpoint int_digits (acc : Z) (after_us : bool) (s : string) : option Z :=
  match s with
  | EmptyString => if after_us then None else Some acc
  | String c r =>
      match digit_of c with
      | Some d => int_digits (10 * acc + d) false r
      | None =>
          if Ascii.eqb c "_" then
            if after_us then None else int_digits acc true r
          else if after_us then None
          else if all_space s then Some acc else None
      end
  end.

Definition int_unsigned (s : string) : option Z :=
  match s with
  | String c r =>
      match digit_of c with
      | Some d => int_digits d false r
      | None => None
      end
  | EmptyString => None
  end.

Definition int (s : string) : exn + Z :=
  let r :=
    match lstrip s with
    | String "+" r => int_unsigned r
    | String "-" r => Z.opp <$> int_unsigned r
    | t => int_unsigned t
    end in
  match r with
  | Some z => inr z
  | None => inl ValueError
  end.

End Py.

Import Py.

(** ** Exceptions and the global state

    A computation runs on a state, may mutate it, and returns a value or
    raises; what was mutated before an exception stays mutated. *)

Definition M (S A : Type) : Type := S -> (exn + A) * S.

Definition ret {S A} (a : A) : M S A := fun s => (inr a, s).

Definition raise {S A} (e : exn) : M S A := fun s => (inl e, s).

Definition bind {S A B} (m : M S A) (k : A -> M S B) : M S B :=
  fun s =>
    match m s with
    | (inr a, s') => k a s'
    | (inl e, s') => (inl e, s')
    end.

Notation "'do' x <- m ; k" := (bind m (fun x => k))
  (at level 10, x name, m at level 100, k at level 200).
Notation "m >> k" := (bind m (fun _ => k))
  (at level 100, k at level 200, right associativity).

(** [try: m  except Exception as e: h e]. *)
Definition try_except {S A} (m : M S A) (h : exn -> M S A) : M S A :=
  fun s =>
    match m s with
    | (inr a, s') => (inr a, s')
    | (inl e, s') => h e s'
    end.

(** [for x in l: body x]. *)
Fixpoint for_each {S A} (l : list A) (body : A -> M S unit) : M S unit :=
  match l with
  | [] => ret tt
  | x :: l' => body x >> for_each l' body
  end.

(** A fallible expression without effect, used inside a computation. *)
Definition lift_result {S A} (r : exn + A) : M S A := fun s => (r, s).

(** Sequencing of fallible expressions without state. *)
Definition and_then {A B} (r : exn + A) (k : A -> exn + B) : exn + B :=
  match r with
  | inr a => k a
  | inl e => inl e
  end.

Notation "'let?' x := r 'in' k" := (and_then r (fun x => k))
  (at level 10, x name, r at level 100, k at level 200).

(** [sorted(d.items())]: the entries of a dictionary by increasing key, in
    the order of code points.  Keys of a dictionary are distinct, so the
    comparison of two entries is decided by their keys. *)
Definition key_le {V} (a b : string * V) : Prop :=
  String.leb (fst a) (fst b) = true.

Global Instance key_le_dec {V} (a b : string * V) : Decision (key_le a b).
Proof. unfold key_le. apply _. Defined.

Definition sorted_items {V} (d : gmap string V) : list (string * V) :=
  merge_sort key_le (map_to_list d).

(** ** Overrides *)

Record Limit_Override := mkOverride {
  region : string;
  service : string;
  limit_name : string;
  value : Z
}.

(** [_Limit_Override.__init__(item)], statement by statement. *)
Definition Limit_Override_init (item : string) : exn + Limit_Override :=
  let? _region := index (split "/" item) 0 in
  let? _service := index (split "/" item) 1 in
  let? before := index (split "=" item) 0 in
  let? _limit_name := index (split "/" before) 2 in
  let? after := index (split "=" item) 1 in
  let? _value := int after in
  inr (mkOverride _region _service _limit_name _value).

(** The class defines neither [__eq__] nor [__hash__]: two overrides are
    equal when they are the same object.  Objects live in a store, addressed
    by the order of their creation, and a Python set of overrides is a set of
    addresses. *)
Record OverrideSet := mkOverrideSet {
  store : list Limit_Override;
  members : gset nat
}.

Definition empty_overrides : OverrideSet := mkOverrideSet [] ∅.

(** Creating an object and adding it to the set. *)
Definition add_new (o : Limit_Override) (s : OverrideSet) : OverrideSet :=
  mkOverrideSet (store s ++ [o]) ({[ length (store s) ]} ∪ members s).

(** [{_Limit_Override(item) for item in lines if '=' in item}]. *)
Fixpoint collect_overrides (lines : list string) (acc : OverrideSet)
  : exn + OverrideSet :=
  match lines with
  | [] => inr acc
  | item :: rest =>
      if contains "=" item then
        let? o := Limit_Override_init item in
        collect_overrides rest (add_new o acc)
      else collect_overrides rest acc
  end.

Definition newline : ascii := ascii_of_N 10.

Definition parse_overrides (text : string) : exn + OverrideSet :=
  collect_overrides (split newline text) empty_overrides.

(** The override records a set holds, one per member. *)
Definition records (s : OverrideSet) : list Limit_Override :=
  omap (fun a => store s !! a) (elements (members s)).

(** What [_read_config] returns for the four settings (file, environment
    variable or default). *)
Record ConfigTexts := mkConfigTexts {
  port_text : string;
  interval_text : string;
  regions_text : string;
  overrides_text : string
}.

(** [_get_configs()]. *)
Definition _get_configs (cfg : ConfigTexts)
  : exn + (Z * Z * list string * OverrideSet) :=
  let? port := int (port_text cfg) in
  let? interval := int (interval_text cfg) in
  let regions := split "," (regions_text cfg) in
  let? overrides := parse_overrides (overrides_text cfg) in
  inr (port, interval, regions, overrides).

(** ** Gauges *)

(** Modelled from the spec: the gauge of the exposition collaborator
    ([prometheus_client.Gauge]), a named metric with a fixed list of label
    names and one settable number per tuple of label values; setting a tuple
    again overwrites it.  A tuple of label values is the keyword list of the
    [labels(...)] call. *)
Record Gauge := mkGauge {
  g_name : string;
  g_documentation : string;
  g_labelnames : list string;
  g_samples : gmap (list (string * string)) Z
}.

(** [g.labels(...).set(v)]. *)
Definition gauge_set (kw : list (string * string)) (v : Z) (g : Gauge) : Gauge :=
  mkGauge (g_name g) (g_documentation g) (g_labelnames g)
          (<[kw := v]> (g_samples g)).

(** The global state of the module: the dictionary [gauges], the records
    written by [logging.exception] (each with the exception it reports) and
    the number of observations of the summary [REQUEST_TIME]. *)
Record World := mkWorld {
  gauges : gmap string Gauge;
  log : list exn;
  observations : nat
}.

Definition with_gauges (f : gmap string Gauge -> gmap string Gauge) (w : World)
  : World :=
  mkWorld (f (gauges w)) (log w) (observations w).

Definition trantab : table := maketrans " -." "___" "()".

(** [path.lower().translate(trantab)]. *)
Definition normalize_path (path : string) : string :=
  translate trantab (lower path).

(** The metric path of a limit: the key obtained for ['.'.join([service,
    limit_name])]. *)
Definition normalize (service limit_name : string) : string :=
  normalize_path (join "." [service; limit_name]).

(** [gauge(path, extra_labels)] on the dictionary.  The gauge object it
    returns is the one stored under the normalised path, so the result is
    that key. *)
Definition gauge_in (path : string) (extra_labels : option (list string))
    (gs : gmap string Gauge) : string * gmap string Gauge :=
  let path := normalize_path path in
  match gs !! path with
  | Some _ => (path, gs)
  | None =>
      let labels :=
        ["region"; "type"] ++
        (match extra_labels with
         | Some l => l
         | None => []
         end) in
      (path, <[path := mkGauge path "" labels ∅]> gs)
  end.

Definition gauge (path : string) (extra_labels : option (list string))
  : M World string :=
  fun w =>
    let '(g, gs) := gauge_in path extra_labels (gauges w) in
    (inr g, with_gauges (fun _ => gs) w).

(** [g.labels(...).set(v)] on the gauge object [g] of the dictionary. *)
Definition labels_set (g : string) (kw : list (string * string)) (v : Z)
  : M World unit :=
  fun w => (inr tt, with_gauges (alter (gauge_set kw v) g) w).

(** [logging.exception('message')] inside the handler of [e]. *)
Definition logging_exception (e : exn) : M World unit :=
  fun w => (inr tt, mkWorld (gauges w) (log w ++ [e]) (observations w)).

(** ** The usage checker *)

(** Modelled from the spec: a usage entry of [awslimitchecker.limit], a
    number with an optional resource identifier. *)
Record AwsLimitUsage := mkUsage {
  get_value : Z;
  resource_id : option string
}.

(** Modelled from the spec: a limit of [awslimitchecker.limit], its ceiling
    and its current usage entries in order. *)
Record AwsLimit := mkLimit {
  get_limit : Z;
  get_current_usage : list AwsLimitUsage
}.

(** Modelled from the spec: the usage checker of [awslimitchecker.checker].
    Refreshing the usage may fail and changes the checker; reading the limits
    may fail and gives a dictionary from service to the dictionary of its
    limits by name. *)
Class AwsLimitChecker (C : Type) := {
  find_usage : C -> (exn + unit) * C;
  get_limits : C -> (exn + gmap string (gmap string AwsLimit)) * C
}.

(** ** The usage translator *)

Definition ec2_path : string := "ec2_running_on_demand_ec2_instances".

(** [next(word for word in limit_name.split(' ') if '.' in word)]. *)
Definition next_dotted (limit_name : string) : exn + string :=
  match List.filter (contains ".") (split " " limit_name) with
  | word :: _ => inr word
  | [] => inl StopIteration
  end.

(** The [instance_type] label of a limit of the on-demand group. *)
Definition instance_type_of (limit_name : string) : exn + string :=
  let limit_path := normalize_path (join "." ["ec2"; limit_name]) in
  if String.eqb limit_path ec2_path then inr "total"
  else next_dotted limit_name.

Definition ec2_labels (region type instance_type : string)
  : list (string * string) :=
  [("region", region); ("type", type); ("instance_type", instance_type)].

Definition base_labels (region type : string) : list (string * string) :=
  [("region", region); ("type", type)].

(** [update_ec2_on_demand(region, limits)]. *)
Definition update_ec2_on_demand (region : string) (limits : gmap string AwsLimit)
  : M World unit :=
  if decide (limits = ∅) then ret tt
  else
    do g <- gauge ec2_path (Some ["instance_type"]);
    for_each (sorted_items limits) (fun entry =>
      do instance_type <- lift_result (instance_type_of (fst entry));
      labels_set g (ec2_labels region "limit" instance_type)
                 (get_limit (snd entry)) >>
      for_each (get_current_usage (snd entry)) (fun resource =>
        labels_set g (ec2_labels region "current" instance_type)
                   (get_value resource))).

(** The [type] label of a usage entry: its resource identifier when that is
    truthy (neither [None] nor the empty string), ["current"] otherwise. *)
Definition metric_type (resource : AwsLimitUsage) : string :=
  match resource_id resource with
  | Some (String _ _ as id) => id
  | _ => "current"
  end.

(** [update_service(path, usage, limit, region)]. *)
Definition update_service (path : string) (usage : list AwsLimitUsage)
    (limit : Z) (region : string) : M World unit :=
  do g <- gauge path None;
  labels_set g (base_labels region "limit") limit >>
  for_each usage (fun resource =>
    labels_set g (base_labels region (metric_type resource))
               (get_value resource)).

(** The two dictionary comprehensions of [update]. *)
Definition ec2_instances_limits (svc_limits : gmap string AwsLimit)
  : gmap string AwsLimit :=
  filter (fun kv => contains "on-demand" (lower (fst kv)) = true) svc_limits.

Definition other_limits (svc_limits : gmap string AwsLimit)
  : gmap string AwsLimit :=
  filter (fun kv => fst kv ∉ dom (ec2_instances_limits svc_limits)) svc_limits.

(** The loop of [update] over the limits of the general group. *)
Definition update_other_limits (region service : string)
    (others : gmap string AwsLimit) : M World unit :=
  for_each (sorted_items others) (fun entry =>
    let path := join "." [service; fst entry] in
    let usage := get_current_usage (snd entry) in
    update_service path usage (get_limit (snd entry)) region).

(** The body of the loop over the services in [update]. *)
Definition update_one_service (region service : string)
    (svc_limits : gmap string AwsLimit) : M World unit :=
  update_ec2_on_demand region (ec2_instances_limits svc_limits) >>
  update_other_limits region service (other_limits svc_limits).

Section Scheduler.

Context {C : Type} `{AwsLimitChecker C}.

(** A call on the checker inside a computation on the checker and the
    world. *)
Definition on_checker {A} (f : C -> (exn + A) * C) : M (C * World) A :=
  fun s => let '(r, c) := f (fst s) in (r, (c, snd s)).

Definition on_world {A} (m : M World A) : M (C * World) A :=
  fun s => let '(r, w) := m (snd s) in (r, (fst s, w)).

(** The [try] block of [update]. *)
Definition update_body (region : string) : M (C * World) unit :=
  on_checker find_usage >>
  do limits <- on_checker get_limits;
  for_each (sorted_items limits) (fun entry =>
    on_world (update_one_service region (fst entry) (snd entry))).

(** [REQUEST_TIME.time()]: one observation per call, however it ends. *)
Definition timed {A} (m : M (C * World) A) : M (C * World) A :=
  fun s =>
    let '(r, (c, w)) := m s in
    (r, (c, mkWorld (gauges w) (log w) (Datatypes.S (observations w)))).

(** [update(checker, region)]. *)
Definition update (checker : C) (region : string) (w : World)
  : (exn + unit) * (C * World) :=
  timed (try_except (update_body region)
                    (fun e => on_world (logging_exception e)))
        (checker, w).

(** One pass of [for region, checker in checkers.items(): update(checker,
    region)] on the dictionary of checkers, in the order of its entries. *)
Fixpoint cycle (checkers : list (string * C)) (w : World)
  : (exn + unit) * (list (string * C) * World) :=
  match checkers with
  | [] => (inr tt, ([], w))
  | (region, checker) :: rest =>
      match update checker region w with
      | (inr _, (checker', w')) =>
          let '(r, (rest', w'')) := cycle rest w' in
          (r, ((region, checker') :: rest', w''))
      | (inl e, (checker', w')) => (inl e, ((region, checker') :: rest, w'))
      end
  end.

(** The first [n] passes of the [while True] loop of [main]. *)
Fixpoint poll (n : nat) (checkers : list (string * C)) (w : World)
  : (exn + unit) * (list (string * C) * World) :=
  match n with
  | O => (inr tt, (checkers, w))
  | Datatypes.S n' =>
      match cycle checkers w with
      | (inr _, (checkers', w')) => poll n' checkers' w'
      | (inl e, s) => (inl e, s)
      end
  end.

End Scheduler.

(** ** A scripted checker

    A checker whose behaviour is fixed in advance, one entry per poll: the
    refresh fails, or the refresh succeeds and reading the limits fails, or
    both succeed and give a report.  It stands for the backend in the
    examples. *)
Inductive Outcome :=
| RefreshFails (e : exn)
| ReadFails (e : exn)
| Gives (report : gmap string (gmap string AwsLimit)).

Definition scripted_find_usage (c : list Outcome) : (exn + unit) * list Outcome :=
  match c with
  | RefreshFails e :: rest => (inl e, rest)
  | _ => (inr tt, c)
  end.

Definition scripted_get_limits (c : list Outcome)
  : (exn + gmap string (gmap string AwsLimit)) * list Outcome :=
  match c with
  | Gives report :: rest => (inr report, rest)
  | ReadFails e :: rest => (inl e, rest)
  | _ => (inr ∅, c)
  end.

Global Instance scripted_checker : AwsLimitChecker (list Outcome) := {
  find_usage := scripted_find_usage;
  get_limits := scripted_get_limits
}.

Definition empty_world : World := mkWorld ∅ [] 0.

(** ** The normaliser as the specification words it *)

(** What becomes of one character: space, dash and dot become an underscore,
    parentheses disappear, anything else stays. *)
Definition transliterate_char (c : ascii) : option ascii :=
  if Ascii.eqb c " " || Ascii.eqb c "-" || Ascii.eqb c "." then Some "_"%char
  else if Ascii.eqb c "(" || Ascii.eqb c ")" then None
  else Some c.

Fixpoint transliterate (s : string) : string :=
  match s with
  | EmptyString => EmptyString
  | String c r =>
      match transliterate_char c with
      | Some d => String d (transliterate r)
      | None => transliterate r
      end
  end.

Definition spec_normalize (service limit_name : string) : string :=
  transliterate (lower (service +:+ "." +:+ limit_name)).

(** ** Relations between states of the registry *)

(** [gs'] keeps every gauge of [gs], under the same key, with the same name
    and the same label names. *)
Definition extends (gs gs' : gmap string Gauge) : Prop :=
  forall p g, gs !! p = Some g ->
    exists g', gs' !! p = Some g' /\ g_name g' = g_name g /\
               g_labelnames g' = g_labelnames g.

(** A property of every run of a computation, relating the state before and
    the state after, whether the run returns or raises. *)
Definition always {S A} (R : S -> S -> Prop) (m : M S A) : Prop :=
  forall s, R s (snd (m s)).

(** The computation returns on every state. *)
Definition returns {S A} (m : M S A) : Prop :=
  forall s, exists a, fst (m s) = inr a.

(** Relations between worlds: the registry only extends; the log is the
    same. *)
Definition gauges_extend (w w' : World) : Prop :=
  extends (gauges w) (gauges w').

Definition same_log (w w' : World) : Prop := log w' = log w.

(** A relation between worlds, seen on the states of the scheduler. *)
Definition on_snd {C} (R : World -> World -> Prop) (s s' : C * World) : Prop :=
  R (snd s) (snd s').

(** The state after the updates of all regions, one after the other in the
    order of the dictionary, each started on the state its predecessor
    left. *)
Fixpoint all_regions {C} `{AwsLimitChecker C} (checkers : list (string * C))
    (w : World) : list (string * C) * World :=
  match checkers with
  | [] => ([], w)
  | (region, checker) :: rest =>
      let s := snd (update checker region w) in
      let s' := all_regions rest (snd s) in
      ((region, fst s) :: fst s', snd s')
  end.

(** The records an exception adds to the log of a run. *)
Definition logged {A} (r : exn + A) : list exn :=
  match r with
  | inl e => [e]
  | inr _ => []
  end.

(** ** The writes of the translator, as the specification words them *)

(** A write sets one tuple of label values to a number. *)
Definition write : Type := list (string * string) * Z.

(** The writes of the general group for one limit, in order: the ceiling
    under type "limit", then every usage entry under its resource identifier
    or under "current". *)
Definition service_writes (region : string) (usage : list AwsLimitUsage)
    (limit : Z) : list write :=
  (base_labels region "limit", limit) ::
  map (fun resource =>
         (base_labels region (metric_type resource), get_value resource))
      usage.

(** The value the last write to [kw] gave it, if any write went there. *)
Definition last_write (kw : list (string * string)) (ws : list write)
  : option Z :=
  fold_left (fun acc w => if decide (fst w = kw) then Some (snd w) else acc)
            ws None.

(** A gauge after a sequence of writes. *)
Definition set_all (ws : list write) (g : Gauge) : Gauge :=
  fold_left (fun g w => gauge_set (fst w) (snd w) g) ws g.

(** The samples of the gauge registered at [p], none when there is no such
    gauge. *)
Definition samples_at (p : string) (gs : gmap string Gauge)
  : gmap (list (string * string)) Z :=
  match gs !! p with
  | Some g => g_samples g
  | None => ∅
  end.

(** The world after the writes of one limit of the general group. *)
Definition after_limit (region service : string) (w : World)
    (entry : string * AwsLimit) : World :=
  snd (update_service (join "." [service; fst entry])
                      (get_current_usage (snd entry))
                      (get_limit (snd entry)) region w).

(** The computation raises on every state. *)
Definition raises {S A} (m : M S A) : Prop :=
  forall s, exists e, fst (m s) = inl e.

(** The computation raises nothing but [e0]. *)
Definition raises_at_most {S A} (e0 : exn) (m : M S A) : Prop :=
  forall s e, fst (m s) = inl e -> e = e0.

(** The words of a limit name, and those that carry a dot. *)
Definition words (limit_name : string) : list string := split " " limit_name.

Definition dotted (word : string) : Prop := contains "." word = true.

(** The writes of the on-demand group for one limit, in order: the ceiling
    under type "limit", then every usage entry under type "current", all
    with the instance type of the limit. *)
Definition ec2_writes (region instance_type : string) (l : AwsLimit)
  : list write :=
  (ec2_labels region "limit" instance_type, get_limit l) ::
  map (fun resource =>
         (ec2_labels region "current" instance_type, get_value resource))
      (get_current_usage l).

(** ** The override lines, as the specification words them *)

(** A line of the form region/service/limit-name=value. *)
Definition override_line (r s l v : string) : string :=
  r +:+ "/" +:+ s +:+ "/" +:+ l +:+ "=" +:+ v.

(** The lines that qualify: those that contain an equals sign. *)
Definition qualifying (lines : list string) : list string :=
  List.filter (contains "=") lines.

(** The text whose lines are [lines]. *)
Definition text_of (lines : list string) : string :=
  join (String newline EmptyString) lines.

(** The shape the specification asks of a qualifying line: exactly three
    parts separated by slashes before the equals sign, and an integer after
    it. *)
Definition spec_shape (item : string) : Prop :=
  exists before after n,
    item = before +:+ String "=" after /\ contains "=" before = false /\
    length (split "/" before) = 3%nat /\ int after = inr n.

(** What the constructor looks at: the text before the first equals sign,
    and the text between the first equals sign and the second (or the end
    of the line). *)
Definition before_equals (item : string) : string :=
  nth 0 (split "=" item) EmptyString.

Definition after_equals (item : string) : string :=
  nth 1 (split "=" item) EmptyString.

(** The record the constructor builds from a line and the value read. *)
Definition override_of (item : string) (n : Z) : Limit_Override :=
  mkOverride (nth 0 (split "/" item) EmptyString)
             (nth 1 (split "/" item) EmptyString)
             (nth 2 (split "/" (before_equals item)) EmptyString)
             n.

(** The record of a line, when the constructor accepts it. *)
Definition record_of (item : string) : option Limit_Override :=
  match Limit_Override_init item with
  | inr o => Some o
  | inl _ => None
  end.

(** The set after the creation of the objects [os], in order. *)
Definition add_all (os : list Limit_Override) (acc : OverrideSet)
  : OverrideSet :=
  fold_left (fun s o => add_new o s) os acc.

(** The members of the set are the objects of the store. *)
Definition all_members (s : OverrideSet) : Prop :=
  forall a, a ∈ members s <-> (a < length (store s))%nat.

(** No two members of the set hold the same record. *)
Definition collapsed (s : OverrideSet) : Prop :=
  forall a b o,
    a ∈ members s -> b ∈ members s ->
    store s !! a = Some o -> store s !! b = Some o -> a = b.

(** ** Predicates on characters and strings *)

(** A character that normalisation leaves alone. *)
Definition settled (c : ascii) : Prop :=
  lower_char c = c /\ transliterate_char c = Some c.

(** Every character of the string satisfies [P]. *)
Fixpoint all_chars (P : ascii -> Prop) (s : string) : Prop :=
  match s with
  | EmptyString => True
  | String c r => P c /\ all_chars P r
  end.

(** [c in s] for a single character. *)
Definition has_char (c : ascii) (s : string) : bool :=
  contains (String c EmptyString) s.

(** The characters an integer literal is made of. *)
Definition int_char (c : ascii) : Prop :=
  is_space c = true \/ is_Some (digit_of c) \/
  c = "+"%char \/ c = "-"%char \/ c = "_"%char.

(** ** Further relations between worlds *)

(** The summary has the same number of observations. *)
Definition same_observations (w w' : World) : Prop :=
  observations w' = observations w.

(** The log of [w'] is the log of [w] with at most [n] records added. *)
Definition log_grows_by (n : nat) (w w' : World) : Prop :=
  exists added, log w' = log w ++ added /\ (length added <= n)%nat.

(** Every sample of [gs] is still a sample of [gs'], with the same or with
    another value. *)
Definition keeps_samples (gs gs' : gmap string Gauge) : Prop :=
  forall p g kw v,
    gs !! p = Some g -> g_samples g !! kw = Some v ->
    exists g' v', gs' !! p = Some g' /\ g_samples g' !! kw = Some v'.

Definition samples_kept (w w' : World) : Prop :=
  keeps_samples (gauges w) (gauges w').

(** The shape of the registry the module builds: a gauge is stored under its
    own name, that name is a normalised path, and its labels are region and
    type, with or without instance_type. *)
Definition registry_ok (gs : gmap string Gauge) : Prop :=
  forall p g, gs !! p = Some g ->
    g_name g = p /\ normalize_path p = p /\
    (g_labelnames g = ["region"; "type"] \/
     g_labelnames g = ["region"; "type"; "instance_type"]).

Definition keeps_registry_ok (w w' : World) : Prop :=
  registry_ok (gauges w) -> registry_ok (gauges w').

(** The value of the sample of the gauge registered at [p] under the labels
    [kw], if there is such a gauge and such a sample. *)
Definition sample_of (w : World) (p : string) (kw : list (string * string))
  : option Z :=
  gauges w !! p ≫= fun g => g_samples g !! kw.

(** The gauges other than the one at [p] are the same in both worlds. *)
Definition same_elsewhere (p : string) (w w' : World) : Prop :=
  delete p (gauges w') = delete p (gauges w).


(** ** The start of [main] *)

(** Modelled from the spec: the two operations of
    [awslimitchecker.checker] used before the first poll, the construction
    of the checker of a region and the setting of an override on it. *)
Class AwsLimitCheckerSetup (C : Type) := {
  new_checker : string -> C;
  set_limit_override : C -> string -> string -> Z -> C
}.

(** [d[k] = v] on a dictionary, kept in the order of insertion of its keys:
    a key already there keeps its place. *)
Fixpoint dict_set {V} (d : list (string * V)) (k : string) (v : V)
  : list (string * V) :=
  match d with
  | [] => [(k, v)]
  | (k', v') :: d' =>
      if String.eqb k' k then (k, v) :: d' else (k', v') :: dict_set d' k v
  end.

Section Startup.

Context {C : Type} `{AwsLimitCheckerSetup C}.

(** The inner loop of [main] for one region: the overrides of that region,
    in the order in which the set gives them, are set on the checker. *)
Definition apply_overrides (region0 : string) (overrides : list Limit_Override)
    (checker : C) : C :=
  fold_left
    (fun c o => set_limit_override c (service o) (limit_name o) (value o))
    (List.filter (fun o => String.eqb (region o) region0) overrides)
    checker.

(** The checker [main] ends with for a region. *)
Definition seeded (overrides : list Limit_Override) (region0 : string) : C :=
  apply_overrides region0 overrides (new_checker region0).

(** The loop of [main] over the regions; [overrides] are the members of the
    set of overrides in the order of its iteration. *)
Definition startup (regions : list string) (overrides : list Limit_Override)
  : list (string * C) :=
  fold_left (fun d region0 => dict_set d region0 (seeded overrides region0))
            regions [].

End Startup.

(** A checker that only remembers its region and the overrides set on it,
    in order.  It stands for the backend in the examples of the start. *)
Definition Seeding : Type := string * list (string * string * Z).

Global Instance seeding_setup : AwsLimitCheckerSetup Seeding := {
  new_checker := fun region0 => (region0, []);
  set_limit_override := fun c s l v => (fst c, snd c ++ [(s, l, v)])
}.

(** A checker whose backend is out of reach: every refresh fails.  With
    [seeding_setup] it stands for the backend in the example of [main]. *)
Global Instance seeding_checker : AwsLimitChecker Seeding := {
  find_usage := fun c => (inl (Backend "offline"), c);
  get_limits := fun c => (inr ∅, c)
}.


(* ================================================================== *)
(** * Properties *)
(* ================================================================== *)

(** ** Characters and strings *)

Ltac each_char c :=
  destruct c as [[] [] [] [] [] [] [] []]; vm_compute; try reflexivity;
  try discriminate; auto.

Lemma table_get_trantab c :
  table_get trantab c =
  match transliterate_char c with
  | Some d => if Ascii.eqb d c then None else Some (Some d)
  | None => Some None
  end.
Proof. each_char c. Qed.

Lemma translate_trantab s : translate trantab s = transliterate s.
Proof.
  induction s as [|c r IH]; [reflexivity|].
  cbn [translate transliterate]. rewrite table_get_trantab, IH.
  destruct (transliterate_char c) as [d|] eqn:E; [|reflexivity].
  destruct (Ascii.eqb d c) eqn:Ed; [|reflexivity].
  apply Ascii.eqb_eq in Ed. by subst.
Qed.

Lemma transliterate_lower_settled c :
  match transliterate_char (lower_char c) with
  | Some d => settled d
  | None => True
  end.
Proof. unfold settled. each_char c. Qed.

Lemma normalize_path_settled s : all_chars settled (normalize_path s).
Proof.
  unfold normalize_path. rewrite translate_trantab.
  induction s as [|c r IH]; [exact I|].
  cbn [lower transliterate].
  pose proof (transliterate_lower_settled c) as Hc.
  destruct (transliterate_char (lower_char c)); [split; assumption | exact IH].
Qed.

Lemma normalize_path_fixes s : all_chars settled s -> normalize_path s = s.
Proof.
  unfold normalize_path. rewrite translate_trantab.
  induction s as [|c r IH]; [reflexivity|].
  intros [[Hl Ht] Hr]. cbn [lower transliterate].
  rewrite Hl, Ht. f_equal. by apply IH.
Qed.

Lemma join_pair sep a b : join sep [a; b] = a +:+ sep +:+ b.
Proof. reflexivity. Qed.

Lemma has_char_nil c : has_char c EmptyString = false.
Proof. reflexivity. Qed.

Lemma has_char_cons c d r :
  has_char c (String d r) = Ascii.eqb c d || has_char c r.
Proof.
  unfold has_char. cbn [contains String.prefix].
  destruct (ascii_dec c d) as [->|Hne].
  - rewrite Ascii.eqb_refl. by destruct r.
  - apply Ascii.eqb_neq in Hne. by rewrite Hne.
Qed.

Lemma has_char_app c a b :
  has_char c (a +:+ b) = has_char c a || has_char c b.
Proof.
  induction a as [|d a IH]; [reflexivity|].
  change (String d a +:+ b) with (String d (a +:+ b)).
  rewrite !has_char_cons, IH. by rewrite orb_assoc.
Qed.

Lemma has_char_all (P : ascii -> Prop) c s :
  all_chars P s -> ~ P c -> has_char c s = false.
Proof.
  intros Hs Hc. induction s as [|d r IH]; [reflexivity|].
  destruct Hs as [Hd Hr]. rewrite has_char_cons, (IH Hr), orb_false_r.
  apply Ascii.eqb_neq. by intros ->.
Qed.

Lemma string_app_nil_r (s : string) : s +:+ EmptyString = s.
Proof.
  induction s as [|c r IH]; [reflexivity|].
  change (String c r +:+ "") with (String c (r +:+ "")). by rewrite IH.
Qed.

Lemma string_app_assoc (a b c : string) : (a +:+ b) +:+ c = a +:+ b +:+ c.
Proof.
  induction a as [|d a IH]; [reflexivity|].
  change ((String d a +:+ b) +:+ c) with (String d ((a +:+ b) +:+ c)).
  by rewrite IH.
Qed.

Lemma split_not_nil sep s : split sep s <> [].
Proof.
  destruct s as [|c r]; [discriminate|]. cbn [split].
  destruct (Ascii.eqb c sep); [discriminate|].
  destruct (split sep r); discriminate.
Qed.

(** A prefix without separator stays in front of the first field. *)
Lemma split_app_clean sep a b :
  has_char sep a = false ->
  split sep (a +:+ b) =
  match split sep b with
  | f :: fs => (a +:+ f) :: fs
  | [] => []
  end.
Proof.
  induction a as [|c a IH]; intros Ha.
  - cbn. destruct (split sep b) eqn:E; [by apply split_not_nil in E | done].
  - rewrite has_char_cons in Ha. apply orb_false_elim in Ha as [Hc Ha].
    change (String c a +:+ b) with (String c (a +:+ b)). cbn [split].
    rewrite Ascii.eqb_sym, Hc, (IH Ha).
    destruct (split sep b) eqn:E; [by apply split_not_nil in E | done].
Qed.

Lemma split_clean sep a : has_char sep a = false -> split sep a = [a].
Proof.
  intros Ha. rewrite <- (string_app_nil_r a) at 1.
  rewrite (split_app_clean _ _ _ Ha). cbn. by rewrite string_app_nil_r.
Qed.

(** The first field ends at the first separator. *)
Lemma split_at_sep sep a b :
  has_char sep a = false ->
  split sep (a +:+ String sep b) = a :: split sep b.
Proof.
  intros Ha. rewrite (split_app_clean _ _ _ Ha). cbn [split].
  rewrite Ascii.eqb_refl. by rewrite string_app_nil_r.
Qed.

Lemma split_first_clean sep s :
  match split sep s with
  | f :: _ => has_char sep f = false
  | [] => False
  end.
Proof.
  induction s as [|c r IH]; [reflexivity|]. cbn [split].
  destruct (Ascii.eqb c sep) eqn:Ec; [reflexivity|].
  destruct (split sep r) as [|f fs]; [done|].
  rewrite has_char_cons, IH, Ascii.eqb_sym, Ec. reflexivity.
Qed.

(** A line holds the separator exactly when it splits in two or more. *)
Lemma split_length_has_char sep s :
  has_char sep s = true <-> (2 <= length (split sep s))%nat.
Proof.
  induction s as [|c r IH]; [cbn; split; [discriminate | lia]|].
  rewrite has_char_cons. cbn [split]. rewrite (Ascii.eqb_sym sep c).
  destruct (Ascii.eqb c sep) eqn:Ec.
  - cbn. pose proof (split_not_nil sep r). destruct (split sep r); [done|].
    cbn. split; [lia | done].
  - cbn [orb]. rewrite IH. pose proof (split_not_nil sep r).
    destruct (split sep r); [done | reflexivity].
Qed.

(** *** Characters of an integer literal *)

Lemma all_space_chars s : all_space s = true -> all_chars int_char s.
Proof.
  induction s as [|c r IH]; [done|]. cbn. intros [Hc Hr]%andb_prop.
  split; [by left | by apply IH].
Qed.

Lemma int_digits_chars s : forall acc us z,
  int_digits acc us s = Some z -> all_chars int_char s.
Proof.
  induction s as [|c r IH]; intros acc us z Hz; [done|].
  cbn [int_digits] in Hz. cbn [all_chars].
  destruct (digit_of c) eqn:Ed.
  - split; [right; left; by rewrite Ed | by eapply IH].
  - destruct (Ascii.eqb c "_") eqn:Eu.
    + apply Ascii.eqb_eq in Eu as ->. destruct us; [done|].
      split; [red; tauto | by eapply IH].
    + destruct us; [done|].
      destruct (all_space (String c r)) eqn:Es; [|done].
      by apply all_space_chars in Es.
Qed.

Lemma int_unsigned_chars s z : int_unsigned s = Some z -> all_chars int_char s.
Proof.
  destruct s as [|c r]; [done|]. cbn. destruct (digit_of c) eqn:Ed; [|done].
  intros Hz. split; [right; left; by rewrite Ed | by eapply int_digits_chars].
Qed.

Lemma lstrip_chars s : all_chars int_char (lstrip s) -> all_chars int_char s.
Proof.
  induction s as [|c r IH]; [done|]. cbn [lstrip].
  destruct (is_space c) eqn:Es; [|done].
  intros Hr. split; [by left | by apply IH].
Qed.

Lemma int_chars s z : int s = inr z -> all_chars int_char s.
Proof.
  unfold int. intros Hz. apply lstrip_chars.
  destruct (lstrip s) as [|c r]; [done|].
  assert (Hsign : forall o : option Z,
    match o with Some z0 => inr z0 | None => inl ValueError end = inr z ->
    is_Some o) by (intros [?|]; [eauto | done]).
  destruct (ascii_dec c "+") as [->|Hp]; [|destruct (ascii_dec c "-") as [->|Hm]].
  - apply Hsign in Hz as [z' Hz']. split; [red; tauto|].
    by eapply int_unsigned_chars.
  - apply Hsign in Hz as [z' Hz'].
    destruct (int_unsigned r) eqn:Er; [|done].
    split; [red; tauto | by eapply int_unsigned_chars].
  - assert (Hu : is_Some (int_unsigned (String c r))).
    { apply Hsign.
      destruct c as [[] [] [] [] [] [] [] []]; try exact Hz; done. }
    destruct Hu as [z' Hz']. by eapply int_unsigned_chars.
Qed.

Lemma int_no_equals s z : int s = inr z -> has_char "=" s = false.
Proof.
  intros Hz. apply (has_char_all int_char); [by eapply int_chars|].
  unfold int_char. vm_compute. intros [?|[[? ?]|[?|[?|?]]]]; discriminate.
Qed.

(** ** Reasoning on computations *)

Section Computations.

Context {S : Type} (R : S -> S -> Prop) `{!Reflexive R, !Transitive R}.

Lemma always_ret {A} (a : A) : always R (ret a).
Proof. intros s. reflexivity. Qed.

Lemma always_lift_result {A} (r : exn + A) : always R (lift_result r).
Proof. intros s. reflexivity. Qed.

Lemma always_bind {A B} (m : M S A) (k : A -> M S B) :
  always R m -> (forall a, always R (k a)) -> always R (bind m k).
Proof.
  intros Hm Hk s. unfold bind. specialize (Hm s).
  destruct (m s) as [[e|a] s']; [exact Hm|].
  etransitivity; [exact Hm | apply Hk].
Qed.

Lemma always_for_each {A} (l : list A) (body : A -> M S unit) :
  (forall x, always R (body x)) -> always R (for_each l body).
Proof.
  intros Hb. induction l as [|x l IH]; [apply always_ret|].
  apply always_bind; [apply Hb | intros _; exact IH].
Qed.

Lemma always_try_except {A} (m : M S A) (h : exn -> M S A) :
  always R m -> (forall e, always R (h e)) -> always R (try_except m h).
Proof.
  intros Hm Hh s. unfold try_except. specialize (Hm s).
  destruct (m s) as [[e|a] s']; [|exact Hm].
  etransitivity; [exact Hm | apply Hh].
Qed.

End Computations.

Lemma returns_ret {S A} (a : A) : returns (@ret S A a).
Proof. intros s. by exists a. Qed.

Lemma returns_bind {S A B} (m : M S A) (k : A -> M S B) :
  returns m -> (forall a, returns (k a)) -> returns (bind m k).
Proof.
  intros Hm Hk s. unfold bind. destruct (Hm s) as [a Ha].
  destruct (m s) as [[e|a'] s']; [discriminate|]. apply Hk.
Qed.

Lemma returns_for_each {S A} (l : list A) (body : A -> M S unit) :
  (forall x, returns (body x)) -> returns (for_each l body).
Proof.
  intros Hb. induction l as [|x l IH]; [apply returns_ret|].
  apply returns_bind; [apply Hb | intros _; exact IH].
Qed.

Lemma returns_unit {S} (m : M S unit) : returns m -> forall s, fst (m s) = inr tt.
Proof. intros Hm s. destruct (Hm s) as [[] Ha]. exact Ha. Qed.

(** ** The registry *)

Global Instance extends_refl : Reflexive extends.
Proof. intros gs p g Hg. eauto. Qed.

Global Instance extends_trans : Transitive extends.
Proof.
  intros g1 g2 g3 H12 H23 p g Hg.
  destruct (H12 p g Hg) as (g' & Hg' & Hn & Hl).
  destruct (H23 p g' Hg') as (g'' & Hg'' & Hn' & Hl').
  exists g''. split; [done|]. split; congruence.
Qed.

Lemma subseteq_extends (gs gs' : gmap string Gauge) : gs ⊆ gs' -> extends gs gs'.
Proof.
  intros Hsub p g Hg. exists g. split; [|done].
  by eapply lookup_weaken.
Qed.

Lemma gauge_in_fst path extra gs :
  fst (gauge_in path extra gs) = normalize_path path.
Proof. unfold gauge_in. by destruct (gs !! normalize_path path). Qed.

Lemma gauge_in_subseteq path extra (gs : gmap string Gauge) :
  gs ⊆ snd (gauge_in path extra gs).
Proof.
  unfold gauge_in. destruct (gs !! normalize_path path) eqn:E; [done|].
  by apply insert_subseteq.
Qed.

Lemma gauge_in_registered path extra (gs : gmap string Gauge) :
  is_Some (snd (gauge_in path extra gs) !! normalize_path path).
Proof.
  unfold gauge_in. destruct (gs !! normalize_path path) eqn:E; cbn.
  - by rewrite E.
  - by rewrite lookup_insert_eq.
Qed.

Lemma alter_gauge_set_extends kw v h (gs : gmap string Gauge) :
  extends gs (alter (gauge_set kw v) h gs).
Proof.
  intros p g Hg. destruct (decide (h = p)) as [->|Hne].
  - exists (gauge_set kw v g). by rewrite lookup_alter_eq, Hg.
  - exists g. by rewrite lookup_alter_ne.
Qed.

Global Instance gauges_extend_refl : Reflexive gauges_extend.
Proof. intros w. unfold gauges_extend. reflexivity. Qed.

Global Instance gauges_extend_trans : Transitive gauges_extend.
Proof. intros a b c Hab Hbc. unfold gauges_extend in *. by etransitivity. Qed.

Global Instance same_log_refl : Reflexive same_log.
Proof. by intros w. Qed.

Global Instance same_log_trans : Transitive same_log.
Proof. intros a b c Hab Hbc. unfold same_log in *. congruence. Qed.

Global Instance on_snd_refl {C} R `{!Reflexive R} : Reflexive (@on_snd C R).
Proof. intros s. unfold on_snd. reflexivity. Qed.

Global Instance on_snd_trans {C} R `{!Transitive R} : Transitive (@on_snd C R).
Proof. intros a b c Hab Hbc. unfold on_snd in *. by etransitivity. Qed.

Ltac step_always :=
  repeat (cbv zeta;
    match goal with
    | |- always _ (ret _) => apply always_ret; apply _
    | |- always _ (lift_result _) => apply always_lift_result; apply _
    | |- always _ (bind _ _) => apply always_bind; [apply _ | | intros ?]
    | |- always _ (for_each _ _) =>
        apply always_for_each; [apply _ | apply _ | intros ?]
    end).

Lemma gauge_extends path extra : always gauges_extend (gauge path extra).
Proof.
  intros w. unfold gauge, gauges_extend.
  pose proof (gauge_in_subseteq path extra (gauges w)) as Hsub.
  destruct (gauge_in path extra (gauges w)) as [g gs]. cbn in *.
  by apply subseteq_extends.
Qed.

Lemma gauge_same_log path extra : always same_log (gauge path extra).
Proof.
  intros w. unfold gauge, same_log.
  by destruct (gauge_in path extra (gauges w)).
Qed.

Lemma gauge_returns path extra : returns (gauge path extra).
Proof.
  intros w. unfold gauge.
  destruct (gauge_in path extra (gauges w)) as [g gs]. by exists g.
Qed.

Lemma labels_set_extends g kw v : always gauges_extend (labels_set g kw v).
Proof. intros w. apply alter_gauge_set_extends. Qed.

Lemma labels_set_same_log g kw v : always same_log (labels_set g kw v).
Proof. by intros w. Qed.

Lemma labels_set_returns g kw v : returns (labels_set g kw v).
Proof. intros w. by exists tt. Qed.

Lemma update_service_extends path usage limit region :
  always gauges_extend (update_service path usage limit region).
Proof.
  unfold update_service. step_always;
    first [apply gauge_extends | apply labels_set_extends].
Qed.

Lemma update_service_same_log path usage limit region :
  always same_log (update_service path usage limit region).
Proof.
  unfold update_service. step_always;
    first [apply gauge_same_log | apply labels_set_same_log].
Qed.

Lemma update_service_returns path usage limit region :
  returns (update_service path usage limit region).
Proof.
  unfold update_service.
  apply returns_bind; [apply gauge_returns | intros g].
  apply returns_bind; [apply labels_set_returns | intros _].
  apply returns_for_each. intros x. apply labels_set_returns.
Qed.

Lemma update_ec2_on_demand_extends region limits :
  always gauges_extend (update_ec2_on_demand region limits).
Proof.
  unfold update_ec2_on_demand. destruct (decide (limits = ∅)).
  - apply always_ret; apply _.
  - step_always; first [apply gauge_extends | apply labels_set_extends].
Qed.

Lemma update_ec2_on_demand_same_log region limits :
  always same_log (update_ec2_on_demand region limits).
Proof.
  unfold update_ec2_on_demand. destruct (decide (limits = ∅)).
  - apply always_ret; apply _.
  - step_always; first [apply gauge_same_log | apply labels_set_same_log].
Qed.

Lemma update_one_service_extends region service svc_limits :
  always gauges_extend (update_one_service region service svc_limits).
Proof.
  unfold update_one_service, update_other_limits. step_always;
    first [apply update_ec2_on_demand_extends | apply update_service_extends].
Qed.

Lemma update_one_service_same_log region service svc_limits :
  always same_log (update_one_service region service svc_limits).
Proof.
  unfold update_one_service, update_other_limits. step_always;
    first [apply update_ec2_on_demand_same_log | apply update_service_same_log].
Qed.

Section SchedulerFacts.

Context {C : Type} `{AwsLimitChecker C}.

Lemma always_on_world {A} (R : World -> World -> Prop) (m : M World A) :
  always R m -> always (@on_snd C R) (on_world m).
Proof.
  intros Hm [c w]. unfold on_world, on_snd. cbn.
  specialize (Hm w). by destruct (m w).
Qed.

Lemma always_on_checker {A} (R : World -> World -> Prop) `{!Reflexive R}
    (f : C -> (exn + A) * C) :
  always (@on_snd C R) (on_checker f).
Proof.
  intros [c w]. unfold on_checker, on_snd. cbn. by destruct (f c).
Qed.

Lemma update_body_always (R : World -> World -> Prop)
    `{!Reflexive R, !Transitive R} region :
  (forall service svc_limits,
      always R (update_one_service region service svc_limits)) ->
  always (@on_snd C R) (update_body region).
Proof.
  intros Hone. unfold update_body. step_always.
  - by apply always_on_checker.
  - by apply always_on_checker.
  - apply always_on_world, Hone.
Qed.

End SchedulerFacts.

Section UpdateFacts.

Context {C : Type} `{AwsLimitChecker C}.

Lemma update_body_same_log region :
  always (@on_snd C same_log) (update_body region).
Proof.
  apply update_body_always; [apply _ | apply _ |].
  intros. apply update_one_service_same_log.
Qed.

Lemma update_body_extends region :
  always (@on_snd C gauges_extend) (update_body region).
Proof.
  apply update_body_always; [apply _ | apply _ |].
  intros. apply update_one_service_extends.
Qed.

Lemma update_unfold (checker : C) region w :
  update checker region w =
  let s := snd (update_body region (checker, w)) in
  (inr tt,
   (fst s,
    mkWorld (gauges (snd s))
            (log (snd s) ++ logged (fst (update_body region (checker, w))))
            (Datatypes.S (observations (snd s))))).
Proof.
  unfold update, timed, try_except.
  destruct (update_body region (checker, w)) as [[e|[]] [c' w']]; cbn.
  - reflexivity.
  - by rewrite app_nil_r.
Qed.

Lemma update_returns (checker : C) region w :
  fst (update checker region w) = inr tt.
Proof. by rewrite update_unfold. Qed.

Lemma update_log (checker : C) region w :
  log (snd (snd (update checker region w))) =
  log w ++ logged (fst (update_body region (checker, w))).
Proof.
  rewrite update_unfold. cbn.
  by rewrite (update_body_same_log region (checker, w)).
Qed.

Lemma update_extends (checker : C) region w :
  extends (gauges w) (gauges (snd (snd (update checker region w)))).
Proof.
  rewrite update_unfold. cbn.
  apply (update_body_extends region (checker, w)).
Qed.

Lemma cycle_all_regions (checkers : list (string * C)) w :
  cycle checkers w = (inr tt, all_regions checkers w).
Proof.
  revert w. induction checkers as [|[region checker] rest IH]; intros w.
  - reflexivity.
  - cbn [cycle all_regions].
    pose proof (update_returns checker region w) as Hr.
    destruct (update checker region w) as [[e|[]] [c' w']]; [done|].
    cbn [snd fst]. rewrite IH. by destruct (all_regions rest w').
Qed.

Lemma poll_all_regions n (checkers : list (string * C)) w :
  poll n checkers w =
  (inr tt, Nat.iter n (fun s => all_regions (fst s) (snd s)) (checkers, w)).
Proof.
  revert checkers w. induction n as [|n IH]; intros checkers w.
  - reflexivity.
  - cbn [poll]. rewrite cycle_all_regions.
    destruct (all_regions checkers w) as [cs' w'] eqn:E.
    rewrite IH. f_equal.
    change (Datatypes.S n) with (1 + n)%nat.
    rewrite Nat.add_comm, Nat.iter_add. cbn [Nat.iter nat_rect fst snd].
    by rewrite E.
Qed.

End UpdateFacts.

(** ** Path normalisation *)

(** C1.  The path of a limit is a function of (service, limit name) alone:
    the two are joined by a dot, the whole is lowercased, and one pass over
    the characters turns each space, dash and dot into an underscore and
    drops each parenthesis.  The registry key [gauge] computes for the joined
    name is this path, whatever the extra labels and the state of the
    world.  EC2 with "Running On-Demand m5.large Instances" gives
    "ec2_running_on_demand_m5_large_instances". *)
Theorem normalize_transliterates :
  (forall service limit_name,
      normalize service limit_name = spec_normalize service limit_name) /\
  normalize "EC2" "Running On-Demand m5.large Instances"
    = "ec2_running_on_demand_m5_large_instances" /\
  (forall service limit_name extra w,
      fst (gauge (join "." [service; limit_name]) extra w)
        = inr (normalize service limit_name)).
Proof.
  split; [|split].
  - intros service limit_name. unfold normalize, normalize_path, spec_normalize.
    by rewrite translate_trantab, join_pair.
  - reflexivity.
  - intros service limit_name extra w. unfold gauge, normalize.
    pose proof (gauge_in_fst (join "." [service; limit_name]) extra (gauges w))
      as Hfst.
    destruct (gauge_in _ extra (gauges w)) as [g gs]. cbn in *. by subst.
Qed.

(** C10.  Normalising a normalised path changes nothing.  The canonical
    on-demand path is therefore its own key in the registry. *)
Theorem normalize_path_idempotent :
  (forall s, normalize_path (normalize_path s) = normalize_path s) /\
  normalize_path ec2_path = ec2_path /\
  (forall extra gs, fst (gauge_in ec2_path extra gs) = ec2_path).
Proof.
  split; [|split].
  - intros s. apply normalize_path_fixes, normalize_path_settled.
  - reflexivity.
  - intros extra gs. by rewrite gauge_in_fst.
Qed.

(** ** The gauge registry *)

(** C4.  [gauge] gets or creates.  The handle is the normalised path.  When
    that path is free, a gauge named after it is inserted there with the
    labels region, type and the extra labels, and no sample; when it is
    taken, the registry is returned as it is, whatever extra labels were
    passed, and so is it on every later call for a path with the same
    normalisation.  The registry only grows, and neither setting a sample nor
    a whole update of a region changes the name or the label names of a
    registered gauge. *)
Theorem gauge_get_or_create {C : Type} `{AwsLimitChecker C} (path : string)
    (extra : option (list string)) (gs : gmap string Gauge) :
  let p := normalize_path path in
  let gs' := snd (gauge_in path extra gs) in
  fst (gauge_in path extra gs) = p /\
  (gs !! p = None ->
   gs' = <[p := mkGauge p "" (["region"; "type"] ++ default [] extra) ∅]> gs) /\
  (forall g, gs !! p = Some g -> gs' = gs) /\
  (forall path2 extra2, normalize_path path2 = p ->
     gauge_in path2 extra2 gs' = (p, gs')) /\
  gs ⊆ gs' /\
  (forall kw v h, extends gs' (alter (gauge_set kw v) h gs')) /\
  (forall (checker : C) region w,
     gauges w = gs' ->
     extends gs' (gauges (snd (snd (update checker region w))))).
Proof.
  intros p gs'. repeat split.
  - apply gauge_in_fst.
  - intros Hfree. subst gs'. unfold gauge_in. fold p. rewrite Hfree.
    by destruct extra.
  - intros g Hg. subst gs'. unfold gauge_in. fold p. by rewrite Hg.
  - intros path2 extra2 Hp.
    destruct (gauge_in_registered path extra gs) as [g Hg]. fold p gs' in Hg.
    unfold gauge_in at 1. rewrite Hp, Hg. reflexivity.
  - apply gauge_in_subseteq.
  - intros kw v h. apply alter_gauge_set_extends.
  - intros checker region w <-. apply update_extends.
Qed.

Lemma gauge_get_or_create_witness :
  let path := "EC2.Elastic IPs (VPC)" in
  let p := normalize_path path in
  let g0 := mkGauge p "" ["region"; "type"] ∅ in
  let gs0 : gmap string Gauge := ∅ in
  let gs1 : gmap string Gauge := {[ "ec2_elastic_ips_vpc" := g0 ]} in
  (gs0 !! p = None /\
   snd (gauge_in path None gs0) =
     <[p := mkGauge p "" (["region"; "type"] ++ default [] None) ∅]> gs0) /\
  (gs1 !! p = Some g0 /\
   snd (gauge_in path (Some ["instance_type"]) gs1) = gs1) /\
  (normalize_path "ec2-elastic.ips vpc" = p /\
   gauge_in "ec2-elastic.ips vpc" (Some ["zone"])
            (snd (gauge_in path None gs0))
     = (p, snd (gauge_in path None gs0))) /\
  extends (snd (gauge_in path None gs0))
    (gauges (snd (snd (update ([] : list Outcome) "us-east-1"
                              (mkWorld (snd (gauge_in path None gs0)) [] 0))))).
Proof.
  intros path p g0 gs0 gs1.
  assert (H0 : gs0 !! p = None) by (vm_compute; reflexivity).
  assert (H1 : gs1 !! p = Some g0) by (vm_compute; reflexivity).
  assert (H2 : normalize_path "ec2-elastic.ips vpc" = p)
    by (vm_compute; reflexivity).
  destruct (gauge_get_or_create (C := list Outcome) path None gs0)
    as (_ & Hnew & _ & Hagain & _ & _ & Hupd).
  destruct (gauge_get_or_create (C := list Outcome) path
              (Some ["instance_type"]) gs1)
    as (_ & _ & Hold & _).
  split; [split; [exact H0 | exact (Hnew H0)] |].
  split; [split; [exact H1 | exact (Hold g0 H1)] |].
  split; [split; [exact H2 | exact (Hagain _ _ H2)] |].
  exact (Hupd [] "us-east-1" (mkWorld (snd (gauge_in path None gs0)) [] 0)
              eq_refl).
Defined.

(** ** Failure isolation *)

(** C3.  An update of a region always returns: an exception of the refresh,
    of the reading of the limits or of the translation ends the [try] block,
    is written to the log once, and goes no further.  A pass over the
    regions therefore runs the update of every region, each on the state the
    previous one left, and so does every later pass of the polling loop. *)
Theorem update_isolates_failures {C : Type} `{AwsLimitChecker C} :
  (forall (checker : C) region w,
      fst (update checker region w) = inr tt /\
      log (snd (snd (update checker region w))) =
        log w ++ logged (fst (update_body region (checker, w)))) /\
  (forall (checkers : list (string * C)) w,
      cycle checkers w = (inr tt, all_regions checkers w)) /\
  (forall n (checkers : list (string * C)) w,
      poll n checkers w =
      (inr tt,
       Nat.iter n (fun s => all_regions (fst s) (snd s)) (checkers, w))).
Proof.
  split; [|split].
  - intros checker region w. split; [apply update_returns | apply update_log].
  - apply cycle_all_regions.
  - apply poll_all_regions.
Qed.

(** ** The general group *)

Lemma with_gauges_compose f g w :
  with_gauges f (with_gauges g w) = with_gauges (fun gs => f (g gs)) w.
Proof. reflexivity. Qed.

Lemma set_all_app ws1 ws2 g : set_all (ws1 ++ ws2) g = set_all ws2 (set_all ws1 g).
Proof. unfold set_all. by rewrite fold_left_app. Qed.

Lemma set_all_cons w ws g :
  set_all (w :: ws) g = set_all ws (gauge_set (fst w) (snd w) g).
Proof. reflexivity. Qed.

Lemma last_write_cons kw w ws :
  last_write kw (w :: ws) =
  fold_left (fun acc w => if decide (fst w = kw) then Some (snd w) else acc)
            ws (if decide (fst w = kw) then Some (snd w) else None).
Proof. reflexivity. Qed.

Lemma set_all_labelnames ws g :
  g_labelnames (set_all ws g) = g_labelnames g /\
  g_name (set_all ws g) = g_name g.
Proof.
  revert g. induction ws as [|w ws IH]; intros g; [done|].
  rewrite set_all_cons.
  destruct (IH (gauge_set (fst w) (snd w) g)) as [-> ->]. done.
Qed.

Lemma last_write_from kw ws acc :
  fold_left (fun acc w => if decide (fst w = kw) then Some (snd w) else acc)
            ws acc =
  match last_write kw ws with
  | Some v => Some v
  | None => acc
  end.
Proof.
  revert acc. induction ws as [|w ws IH]; intros acc; [done|].
  rewrite last_write_cons. cbn [fold_left].
  rewrite IH, (IH (if decide (fst w = kw) then Some (snd w) else None)).
  destruct (last_write kw ws); [done|]. by case_decide.
Qed.

Lemma set_all_samples ws g kw :
  g_samples (set_all ws g) !! kw =
  match last_write kw ws with
  | Some v => Some v
  | None => g_samples g !! kw
  end.
Proof.
  revert g. induction ws as [|w ws IH]; intros g; [done|].
  rewrite set_all_cons, IH, last_write_cons, last_write_from.
  destruct (last_write kw ws); [done|]. cbn [gauge_set g_samples].
  case_decide as Hk.
  - subst kw. by rewrite lookup_insert_eq.
  - by rewrite lookup_insert_ne.
Qed.

(** A loop of writes to one gauge is one update of that gauge. *)
Lemma for_each_labels_set {A} h (f : A -> write) (l : list A) w :
  for_each l (fun x => labels_set h (fst (f x)) (snd (f x))) w =
  (inr tt, with_gauges (alter (set_all (map f l)) h) w).
Proof.
  revert w. induction l as [|x l IH]; intros w.
  - cbn. unfold ret. f_equal. destruct w as [gs lg ob]. unfold with_gauges.
    cbn. f_equal. symmetry. by apply alter_id.
  - cbn [for_each]. unfold bind at 1. unfold labels_set at 1.
    rewrite IH, with_gauges_compose. f_equal.
    destruct w as [gs lg ob]. unfold with_gauges. cbn. f_equal.
    rewrite alter_alter_eq. reflexivity.
Qed.

Lemma update_service_run path usage limit region w :
  update_service path usage limit region w =
  (inr tt,
   with_gauges
     (fun gs => alter (set_all (service_writes region usage limit))
                      (normalize_path path) (snd (gauge_in path None gs))) w).
Proof.
  unfold update_service, bind at 1, gauge.
  pose proof (gauge_in_fst path None (gauges w)) as Hfst.
  destruct (gauge_in path None (gauges w)) as [g gs1] eqn:Eg.
  cbn in Hfst. subst g.
  unfold bind, labels_set at 1.
  rewrite (for_each_labels_set (normalize_path path)
             (fun resource =>
                (base_labels region (metric_type resource), get_value resource))).
  rewrite !with_gauges_compose. f_equal.
  destruct w as [gs lg ob]. unfold with_gauges. cbn in *. f_equal.
  rewrite alter_alter_eq, Eg. reflexivity.
Qed.

Lemma for_each_total {S A} (l : list A) (body : A -> M S unit) s :
  (forall x, returns (body x)) ->
  for_each l body s = (inr tt, fold_left (fun s x => snd (body x s)) l s).
Proof.
  intros Hb. revert s. induction l as [|x l IH]; intros s; [reflexivity|].
  cbn [for_each fold_left]. unfold bind.
  pose proof (returns_unit _ (Hb x) s) as Hx.
  destruct (body x s) as [r s']. cbn in Hx. subst r. apply IH.
Qed.

Lemma update_other_limits_run region service others w :
  update_other_limits region service others w =
  (inr tt, fold_left (after_limit region service) (sorted_items others) w).
Proof.
  unfold update_other_limits.
  rewrite for_each_total; [reflexivity|].
  intros entry. apply update_service_returns.
Qed.

Lemma sorted_items_elem_of {V} (d : gmap string V) k v :
  (k, v) ∈ sorted_items d <-> d !! k = Some v.
Proof.
  unfold sorted_items. rewrite merge_sort_Permutation.
  apply elem_of_map_to_list.
Qed.

Lemma update_service_registers path usage limit region w :
  is_Some (gauges (snd (update_service path usage limit region w))
             !! normalize_path path).
Proof.
  rewrite update_service_run. cbn.
  destruct (gauge_in_registered path None (gauges w)) as [g Hg].
  exists (set_all (service_writes region usage limit) g).
  by rewrite lookup_alter_eq, Hg.
Qed.

Lemma fold_after_limit_extends region service l w :
  gauges_extend w (fold_left (after_limit region service) l w).
Proof.
  revert w. induction l as [|e l IH]; intros w; [reflexivity|].
  cbn [fold_left]. etransitivity; [|apply IH].
  apply update_service_extends.
Qed.

Lemma extends_is_Some gs gs' p : extends gs gs' -> is_Some (gs !! p) -> is_Some (gs' !! p).
Proof. intros Hext [g Hg]. destruct (Hext p g Hg) as (g' & Hg' & _). eauto. Qed.

Lemma fold_after_limit_registers region service l w e :
  e ∈ l ->
  is_Some (gauges (fold_left (after_limit region service) l w)
             !! normalize service (fst e)).
Proof.
  revert w. induction l as [|x l IH]; intros w He; [by apply elem_of_nil in He|].
  apply elem_of_cons in He as [->|He]; cbn [fold_left].
  - eapply extends_is_Some; [apply fold_after_limit_extends|].
    apply update_service_registers.
  - by apply IH.
Qed.

Lemma metric_type_spec resource :
  metric_type resource =
  match resource_id resource with
  | Some id => if String.eqb id "" then "current" else id
  | None => "current"
  end.
Proof. unfold metric_type. by destruct (resource_id resource) as [[|c r]|]. Qed.

Lemma gauge_in_elsewhere path extra (gs : gmap string Gauge) :
  delete (normalize_path path) (snd (gauge_in path extra gs)) =
  delete (normalize_path path) gs.
Proof.
  unfold gauge_in. destruct (gs !! normalize_path path); [done|].
  cbn. apply map_eq. intros q.
  destruct (decide (normalize_path path = q)) as [<-|Hne].
  - by rewrite !lookup_delete_eq.
  - by rewrite !lookup_delete_ne, lookup_insert_ne.
Qed.

Lemma alter_elsewhere (f : Gauge -> Gauge) p (gs : gmap string Gauge) :
  delete p (alter f p gs) = delete p gs.
Proof.
  apply map_eq. intros q. destruct (decide (p = q)) as [<-|Hne].
  - by rewrite !lookup_delete_eq.
  - by rewrite !lookup_delete_ne, lookup_alter_ne.
Qed.

Lemma gauge_in_samples path extra (gs : gmap string Gauge) g :
  snd (gauge_in path extra gs) !! normalize_path path = Some g ->
  g_samples g = samples_at (normalize_path path) gs.
Proof.
  unfold gauge_in, samples_at.
  destruct (gs !! normalize_path path) as [g0|] eqn:E; cbn.
  - rewrite E. by intros [= ->].
  - rewrite lookup_insert_eq. by intros [= <-].
Qed.

(** C5.  For a limit of the general group, [update_service] returns, writes
    nothing to the log, touches no other gauge, and leaves the gauge at the
    normalised path with, under every tuple of labels, the value of the last
    write that went there among: the ceiling under type "limit", then each
    usage entry under its resource identifier when it has a non-empty one and
    under "current" otherwise; a tuple no write went to keeps its value.  The
    loop over the general group applies this to every limit, in the order of
    the names, under the path of (service, limit name), and never raises. *)
Theorem general_group_writes (path : string) (usage : list AwsLimitUsage)
    (limit : Z) (region : string) (w : World) :
  let p := normalize_path path in
  let w' := snd (update_service path usage limit region w) in
  fst (update_service path usage limit region w) = inr tt /\
  (exists g, gauges w' !! p = Some g /\
     forall kw, g_samples g !! kw =
       match last_write kw (service_writes region usage limit) with
       | Some v => Some v
       | None => samples_at p (gauges w) !! kw
       end) /\
  delete p (gauges w') = delete p (gauges w) /\
  log w' = log w /\
  (forall resource,
     metric_type resource =
     match resource_id resource with
     | Some id => if String.eqb id "" then "current" else id
     | None => "current"
     end) /\
  (forall service others,
     update_other_limits region service others w =
       (inr tt,
        fold_left (after_limit region service) (sorted_items others) w) /\
     forall name l, others !! name = Some l ->
       is_Some (gauges (snd (update_other_limits region service others w))
                  !! normalize service name)).
Proof.
  intros p w'. subst w'. rewrite update_service_run. cbn [fst snd].
  split; [reflexivity|]. split; [|split; [|split; [|split]]].
  - destruct (gauge_in_registered path None (gauges w)) as [g Hg].
    exists (set_all (service_writes region usage limit) g). subst p.
    unfold with_gauges. cbn [gauges].
    split; [by rewrite lookup_alter_eq, Hg|].
    intros kw. rewrite set_all_samples.
    by rewrite (gauge_in_samples path None (gauges w) g Hg).
  - cbn. subst p. by rewrite alter_elsewhere, gauge_in_elsewhere.
  - reflexivity.
  - apply metric_type_spec.
  - intros service others. split; [apply update_other_limits_run|].
    intros name l Hl. rewrite update_other_limits_run. cbn [snd].
    apply (fold_after_limit_registers region service _ w (name, l)).
    by apply sorted_items_elem_of.
Qed.

Lemma general_group_writes_witness :
  let usage := [mkUsage 1 (Some "eip-1"); mkUsage 2 (Some ""); mkUsage 3 None] in
  let others : gmap string AwsLimit := {[ "Elastic IPs (VPC)" := mkLimit 5 usage ]} in
  let p := normalize_path "EC2.Elastic IPs (VPC)" in
  let w' := snd (update_service "EC2.Elastic IPs (VPC)" usage 5 "us-east-1"
                                empty_world) in
  (exists g, gauges w' !! p = Some g /\
     g_samples g !! base_labels "us-east-1" "limit" = Some 5 /\
     g_samples g !! base_labels "us-east-1" "eip-1" = Some 1 /\
     g_samples g !! base_labels "us-east-1" "current" = Some 3) /\
  others !! "Elastic IPs (VPC)" = Some (mkLimit 5 usage) /\
  is_Some (gauges (snd (update_other_limits "us-east-1" "EC2" others
                                            empty_world))
             !! normalize "EC2" "Elastic IPs (VPC)").
Proof.
  intros usage others p w'.
  destruct (general_group_writes "EC2.Elastic IPs (VPC)" usage 5 "us-east-1"
                                 empty_world)
    as (_ & (g & Hg & Hs) & _ & _ & _ & Hloop).
  assert (Hin : others !! "Elastic IPs (VPC)" = Some (mkLimit 5 usage))
    by (vm_compute; reflexivity).
  split; [|split; [exact Hin|]].
  - exists g. split; [exact Hg|].
    rewrite !Hs. vm_compute. repeat split; reflexivity.
  - destruct (Hloop "EC2" others) as [_ Hreg]. exact (Hreg _ _ Hin).
Defined.

(** ** The two groups *)

Lemma ec2_instances_limits_lookup svc_limits name l :
  ec2_instances_limits svc_limits !! name = Some l <->
  svc_limits !! name = Some l /\ contains "on-demand" (lower name) = true.
Proof. unfold ec2_instances_limits. by rewrite map_lookup_filter_Some. Qed.

Lemma other_limits_lookup svc_limits name l :
  other_limits svc_limits !! name = Some l <->
  svc_limits !! name = Some l /\ contains "on-demand" (lower name) = false.
Proof.
  unfold other_limits. rewrite map_lookup_filter_Some. cbn.
  split; intros [Hl Hc]; (split; [exact Hl|]).
  - destruct (contains "on-demand" (lower name)) eqn:E; [|done].
    exfalso. apply Hc. apply elem_of_dom. exists l.
    by apply ec2_instances_limits_lookup.
  - intros [l' Hl']%elem_of_dom.
    apply ec2_instances_limits_lookup in Hl' as [_ Hc']. congruence.
Qed.

Lemma sorted_items_empty {V} : sorted_items (∅ : gmap string V) = [].
Proof.
  apply Permutation_nil_r. unfold sorted_items.
  by rewrite merge_sort_Permutation, map_to_list_empty.
Qed.

Lemma update_ec2_on_demand_empty region w :
  update_ec2_on_demand region ∅ w = (inr tt, w).
Proof. unfold update_ec2_on_demand. by rewrite decide_True. Qed.

Lemma update_ec2_on_demand_registers region limits w :
  limits <> ∅ ->
  is_Some (gauges (snd (update_ec2_on_demand region limits w)) !! ec2_path).
Proof.
  intros Hne. unfold update_ec2_on_demand. rewrite decide_False by done.
  unfold bind at 1.
  pose proof (gauge_extends ec2_path (Some ["instance_type"]) w) as Hext.
  pose proof (gauge_in_registered ec2_path (Some ["instance_type"]) (gauges w))
    as Hreg.
  unfold gauge in *.
  destruct (gauge_in ec2_path (Some ["instance_type"]) (gauges w))
    as [g gs] eqn:Eg.
  cbn [fst snd] in *. clear Hext.
  match goal with
  | |- is_Some (gauges (snd (?m ?w1)) !! _) =>
      assert (Hloop : gauges_extend w1 (snd (m w1)))
  end.
  { apply always_for_each; [apply _ | apply _ |]. intros entry.
    step_always; apply labels_set_extends. }
  eapply extends_is_Some; [exact Hloop|]. exact Hreg.
Qed.

Lemma update_one_service_registers region service svc_limits w :
  ec2_instances_limits svc_limits <> ∅ ->
  is_Some (gauges (snd (update_one_service region service svc_limits w))
             !! ec2_path).
Proof.
  intros Hne. unfold update_one_service, bind.
  pose proof (update_ec2_on_demand_registers region _ w Hne) as Hreg.
  destruct (update_ec2_on_demand region (ec2_instances_limits svc_limits) w)
    as [[e|[]] w1]; [exact Hreg|].
  eapply extends_is_Some; [|exact Hreg].
  rewrite update_other_limits_run. apply fold_after_limit_extends.
Qed.

(** C6, as the code has it.  The limits of a service fall into two groups
    by their name: those whose lowercased name contains "on-demand", and the
    others.  The on-demand group is left alone when it is empty and is
    emitted under the gauge "ec2_running_on_demand_ec2_instances" when it is
    not, whatever the service: the name of the service plays no part in it. *)
Theorem on_demand_partition (region : string)
    (svc_limits : gmap string AwsLimit) (w : World) :
  (forall name l,
     ec2_instances_limits svc_limits !! name = Some l <->
     svc_limits !! name = Some l /\ contains "on-demand" (lower name) = true) /\
  (forall name l,
     other_limits svc_limits !! name = Some l <->
     svc_limits !! name = Some l /\ contains "on-demand" (lower name) = false) /\
  (ec2_instances_limits svc_limits = ∅ ->
   update_ec2_on_demand region (ec2_instances_limits svc_limits) w
     = (inr tt, w)) /\
  (ec2_instances_limits svc_limits <> ∅ ->
   forall service,
     is_Some (gauges (snd (update_one_service region service svc_limits w))
                !! ec2_path)) /\
  (other_limits svc_limits = ∅ ->
   forall service1 service2,
     update_one_service region service1 svc_limits w =
     update_one_service region service2 svc_limits w).
Proof.
  split; [|split; [|split; [|split]]].
  - apply ec2_instances_limits_lookup.
  - apply other_limits_lookup.
  - intros ->. apply update_ec2_on_demand_empty.
  - intros Hne service. by apply update_one_service_registers.
  - intros Hnone service1 service2. unfold update_one_service, bind.
    destruct (update_ec2_on_demand region (ec2_instances_limits svc_limits) w)
      as [[e|[]] w1]; [reflexivity|].
    rewrite Hnone. unfold update_other_limits.
    by rewrite sorted_items_empty.
Qed.

Lemma on_demand_partition_witness :
  let rds : gmap string AwsLimit := {[ "On-Demand db.t2 x" := mkLimit 9 [] ]} in
  let s3 : gmap string AwsLimit := {[ "Buckets" := mkLimit 100 [] ]} in
  (ec2_instances_limits rds <> ∅ /\ other_limits rds = ∅ /\
   is_Some (gauges (snd (update_one_service "us-east-1" "RDS" rds empty_world))
              !! ec2_path) /\
   update_one_service "us-east-1" "RDS" rds empty_world =
   update_one_service "us-east-1" "EC2" rds empty_world) /\
  (ec2_instances_limits s3 = ∅ /\
   update_ec2_on_demand "us-east-1" (ec2_instances_limits s3) empty_world
     = (inr tt, empty_world)).
Proof.
  intros rds s3.
  assert (H1 : ec2_instances_limits rds <> ∅) by (vm_compute; discriminate).
  assert (H2 : other_limits rds = ∅) by (vm_compute; reflexivity).
  assert (H3 : ec2_instances_limits s3 = ∅) by (vm_compute; reflexivity).
  destruct (on_demand_partition "us-east-1" rds empty_world)
    as (_ & _ & _ & Hreg & Hsame).
  destruct (on_demand_partition "us-east-1" s3 empty_world)
    as (_ & _ & Hskip & _).
  split.
  - split; [exact H1|]. split; [exact H2|].
    split; [exact (Hreg H1 "RDS") | exact (Hsame H2 "RDS" "EC2")].
  - split; [exact H3 | exact (Hskip H3)].
Defined.

(** C6 as stated fails: the on-demand limits of a service that is not EC2
    are emitted under the EC2 gauge. *)
Lemma on_demand_group_outside_ec2 :
  let rds : gmap string AwsLimit := {[ "On-Demand db.t2 x" := mkLimit 9 [] ]} in
  let w' := snd (update_one_service "us-east-1" "RDS" rds empty_world) in
  lower "RDS" <> "ec2" /\
  g_labelnames <$> (gauges w' !! ec2_path)
    = Some ["region"; "type"; "instance_type"] /\
  (gauges w' !! ec2_path) ≫=
    (fun g => g_samples g !! ec2_labels "us-east-1" "limit" "db.t2") = Some 9.
Proof.
  intros rds w'. split; [|split].
  - vm_compute. discriminate.
  - vm_compute. reflexivity.
  - vm_compute. reflexivity.
Qed.

(** ** Exceptions of the translator *)

Lemma raises_bind_l {S A B} (m : M S A) (k : A -> M S B) :
  raises m -> raises (bind m k).
Proof.
  intros Hm s. unfold bind. destruct (Hm s) as [e He].
  destruct (m s) as [[e'|a] s']; [by exists e' | discriminate].
Qed.

Lemma raises_bind_r {S A B} (m : M S A) (k : A -> M S B) :
  (forall a, raises (k a)) -> raises (bind m k).
Proof.
  intros Hk s. unfold bind.
  destruct (m s) as [[e'|a] s']; [by exists e' | apply Hk].
Qed.

Lemma for_each_raises {S A} (l : list A) (body : A -> M S unit) x :
  x ∈ l -> raises (body x) -> raises (for_each l body).
Proof.
  intros Hx Hr. induction l as [|y l IH]; [by apply elem_of_nil in Hx|].
  cbn [for_each]. apply elem_of_cons in Hx as [<-|Hx].
  - by apply raises_bind_l.
  - apply raises_bind_r. intros _. by apply IH.
Qed.

Lemma raises_at_most_bind {S A B} e0 (m : M S A) (k : A -> M S B) :
  raises_at_most e0 m -> (forall a, raises_at_most e0 (k a)) ->
  raises_at_most e0 (bind m k).
Proof.
  intros Hm Hk s e. unfold bind. specialize (Hm s).
  destruct (m s) as [[e'|a] s']; cbn in *.
  - intros [= <-]. by apply Hm.
  - apply Hk.
Qed.

Lemma raises_at_most_for_each {S A} e0 (l : list A) (body : A -> M S unit) :
  (forall x, raises_at_most e0 (body x)) -> raises_at_most e0 (for_each l body).
Proof.
  intros Hb. induction l as [|x l IH]; [by intros s e|].
  cbn [for_each]. apply raises_at_most_bind; [apply Hb | by intros _].
Qed.

Lemma returns_raises_at_most {S A} e0 (m : M S A) :
  returns m -> raises_at_most e0 m.
Proof. intros Hm s e He. destruct (Hm s) as [a Ha]. congruence. Qed.

Lemma next_dotted_exn limit_name e :
  next_dotted limit_name = inl e -> e = StopIteration.
Proof.
  unfold next_dotted. destruct (List.filter _ _); [|done]. by intros [= <-].
Qed.

Lemma instance_type_of_exn limit_name e :
  instance_type_of limit_name = inl e -> e = StopIteration.
Proof.
  unfold instance_type_of. destruct (String.eqb _ _); [done|].
  apply next_dotted_exn.
Qed.

Lemma update_ec2_on_demand_exn region limits :
  raises_at_most StopIteration (update_ec2_on_demand region limits).
Proof.
  unfold update_ec2_on_demand. destruct (decide (limits = ∅)) as [Hemp|Hne].
  - by intros s e.
  - apply raises_at_most_bind.
    + apply returns_raises_at_most, gauge_returns.
    + intros g. apply raises_at_most_for_each. intros entry.
      apply raises_at_most_bind.
      * intros s e. unfold lift_result. cbn. apply instance_type_of_exn.
      * intros it. apply returns_raises_at_most.
        apply returns_bind; [apply labels_set_returns | intros _].
        apply returns_for_each. intros r. apply labels_set_returns.
Qed.

Lemma update_ec2_on_demand_raises region (limits : gmap string AwsLimit) name l :
  limits !! name = Some l ->
  instance_type_of name = inl StopIteration ->
  forall w, fst (update_ec2_on_demand region limits w) = inl StopIteration.
Proof.
  intros Hl Hbad w.
  assert (Hne : limits <> ∅) by (intros ->; by rewrite lookup_empty in Hl).
  assert (Hr : raises (update_ec2_on_demand region limits)).
  { unfold update_ec2_on_demand. rewrite decide_False by done.
    apply raises_bind_r. intros g.
    apply (for_each_raises _ _ (name, l)).
    - by apply sorted_items_elem_of.
    - apply raises_bind_l. intros s. exists StopIteration.
      unfold lift_result. cbn. exact Hbad. }
  destruct (Hr w) as [e He]. rewrite He. f_equal.
  by apply (update_ec2_on_demand_exn region limits w).
Qed.

Lemma update_one_service_exn region service svc_limits :
  raises_at_most StopIteration (update_one_service region service svc_limits).
Proof.
  unfold update_one_service. apply raises_at_most_bind.
  - apply update_ec2_on_demand_exn.
  - intros _. apply returns_raises_at_most. intros w.
    rewrite update_other_limits_run. by exists tt.
Qed.

Lemma update_one_service_raises region service svc_limits name l :
  svc_limits !! name = Some l ->
  contains "on-demand" (lower name) = true ->
  instance_type_of name = inl StopIteration ->
  raises (update_one_service region service svc_limits).
Proof.
  intros Hl Hod Hbad. unfold update_one_service. apply raises_bind_l.
  intros w. exists StopIteration.
  apply (update_ec2_on_demand_raises region _ name l); [|exact Hbad].
  by apply ec2_instances_limits_lookup.
Qed.

Lemma filter_first {A} (P : A -> bool) before x after :
  Forall (fun y => P y = false) before -> P x = true ->
  List.filter P (before ++ x :: after) = x :: List.filter P after.
Proof.
  intros Hb Hx. induction Hb as [|y before Hy Hb IH]; cbn.
  - by rewrite Hx.
  - by rewrite Hy.
Qed.

Lemma filter_none {A} (P : A -> bool) l :
  Forall (fun y => P y = false) l -> List.filter P l = [].
Proof. intros Hl. induction Hl as [|y l Hy Hl IH]; cbn; [done|]. by rewrite Hy. Qed.

Lemma not_dotted_false word : ~ dotted word -> contains "." word = false.
Proof. unfold dotted. by destruct (contains "." word). Qed.

Lemma next_dotted_first limit_name before word after :
  words limit_name = before ++ word :: after ->
  Forall (fun t => ~ dotted t) before -> dotted word ->
  next_dotted limit_name = inr word.
Proof.
  unfold next_dotted, words. intros -> Hb Hw.
  rewrite filter_first; [done| |exact Hw].
  eapply Forall_impl; [exact Hb|]. intros t. apply not_dotted_false.
Qed.

Lemma next_dotted_none limit_name :
  Forall (fun t => ~ dotted t) (words limit_name) ->
  next_dotted limit_name = inl StopIteration.
Proof.
  unfold next_dotted, words. intros Hall. rewrite filter_none; [done|].
  eapply Forall_impl; [exact Hall|]. intros t. apply not_dotted_false.
Qed.

Lemma sorted_items_singleton {V} k (v : V) :
  sorted_items ({[ k := v ]} : gmap string V) = [(k, v)].
Proof.
  apply Permutation_singleton_r. unfold sorted_items.
  by rewrite merge_sort_Permutation, map_to_list_singleton.
Qed.

Lemma normalize_ec2_path : normalize_path ec2_path = ec2_path.
Proof. vm_compute. reflexivity. Qed.

Lemma update_ec2_on_demand_single region name l it w :
  instance_type_of name = inr it ->
  update_ec2_on_demand region {[ name := l ]} w =
  (inr tt,
   with_gauges
     (fun gs => alter (set_all (ec2_writes region it l)) ec2_path
                      (snd (gauge_in ec2_path (Some ["instance_type"]) gs)))
     w).
Proof.
  intros Hit. unfold update_ec2_on_demand.
  rewrite decide_False by apply insert_non_empty.
  unfold bind at 1, gauge.
  pose proof (gauge_in_fst ec2_path (Some ["instance_type"]) (gauges w)) as Hfst.
  destruct (gauge_in ec2_path (Some ["instance_type"]) (gauges w))
    as [g gs1] eqn:Eg.
  cbn [fst] in Hfst. rewrite normalize_ec2_path in Hfst. subst g.
  rewrite sorted_items_singleton.
  cbn [for_each fst snd]. unfold bind, lift_result. rewrite Hit.
  unfold labels_set at 1.
  rewrite (for_each_labels_set ec2_path
             (fun resource =>
                (ec2_labels region "current" it, get_value resource))).
  unfold ret. f_equal.
  destruct w as [gs lg ob]. unfold with_gauges. cbn in *. f_equal.
  rewrite alter_alter_eq, Eg. reflexivity.
Qed.

Section MalformedNames.

Context {C : Type} `{AwsLimitChecker C}.

Lemma raises_on_world {A} (m : M World A) : raises m -> raises (@on_world C A m).
Proof.
  intros Hm [c w]. unfold on_world. cbn. destruct (Hm w) as [e He].
  exists e. by destruct (m w).
Qed.

Lemma raises_at_most_on_world {A} e0 (m : M World A) :
  raises_at_most e0 m -> raises_at_most e0 (@on_world C A m).
Proof.
  intros Hm [c w] e. unfold on_world. cbn. specialize (Hm w e).
  by destruct (m w).
Qed.

Lemma update_body_malformed (checker c1 c2 : C) region w report service
    svc_limits name l :
  find_usage checker = (inr tt, c1) ->
  get_limits c1 = (inr report, c2) ->
  report !! service = Some svc_limits ->
  svc_limits !! name = Some l ->
  contains "on-demand" (lower name) = true ->
  instance_type_of name = inl StopIteration ->
  fst (update_body region (checker, w)) = inl StopIteration.
Proof.
  intros Hfu Hgl Hsvc Hl Hod Hbad.
  unfold update_body, bind, on_checker. cbn [fst snd].
  rewrite Hfu. cbn [fst snd]. rewrite Hgl.
  match goal with
  | |- fst (for_each ?items ?body ?s) = _ =>
      assert (Hr : raises (for_each items body));
      [|assert (Hm : raises_at_most StopIteration (for_each items body))]
  end.
  - apply (for_each_raises _ _ (service, svc_limits)).
    + by apply sorted_items_elem_of.
    + apply raises_on_world. by eapply update_one_service_raises.
  - apply raises_at_most_for_each. intros entry.
    apply raises_at_most_on_world, update_one_service_exn.
  - destruct (Hr (c2, w)) as [e He]. rewrite He. f_equal.
    by apply (Hm (c2, w)).
Qed.

End MalformedNames.

(** ** The instance type of an on-demand limit *)

(** C2.  The instance type of a limit of the on-demand group is "total"
    when the path of ("ec2", limit name) is the canonical on-demand path;
    otherwise it is the first of the words of the name, split at single
    spaces, that contains a dot; and when no word does, StopIteration is
    raised: the translation of the group stops there, and the update of the
    region returns with that exception written to the log.  A limit with an
    instance type is written under it, ceiling and usage. *)
Theorem on_demand_instance_type {C : Type} `{AwsLimitChecker C}
    (limit_name : string) :
  (normalize "ec2" limit_name = ec2_path ->
   instance_type_of limit_name = inr "total") /\
  (normalize "ec2" limit_name <> ec2_path ->
   (forall before word after,
      words limit_name = before ++ word :: after ->
      Forall (fun t => ~ dotted t) before -> dotted word ->
      instance_type_of limit_name = inr word) /\
   (Forall (fun t => ~ dotted t) (words limit_name) ->
    instance_type_of limit_name = inl StopIteration)) /\
  (forall it region l w,
     instance_type_of limit_name = inr it ->
     update_ec2_on_demand region {[ limit_name := l ]} w =
     (inr tt,
      with_gauges
        (fun gs => alter (set_all (ec2_writes region it l)) ec2_path
                         (snd (gauge_in ec2_path (Some ["instance_type"]) gs)))
        w)) /\
  (instance_type_of limit_name = inl StopIteration ->
   (forall region (limits : gmap string AwsLimit) l w,
      limits !! limit_name = Some l ->
      fst (update_ec2_on_demand region limits w) = inl StopIteration) /\
   (contains "on-demand" (lower limit_name) = true ->
    forall (checker c1 c2 : C) region w report service
           (svc_limits : gmap string AwsLimit) l,
      find_usage checker = (inr tt, c1) ->
      get_limits c1 = (inr report, c2) ->
      report !! service = Some svc_limits ->
      svc_limits !! limit_name = Some l ->
      fst (update checker region w) = inr tt /\
      log (snd (snd (update checker region w))) = log w ++ [StopIteration])).
Proof.
  split; [|split; [|split]].
  - intros Hp. unfold instance_type_of. fold (normalize "ec2" limit_name).
    rewrite Hp. by rewrite String.eqb_refl.
  - intros Hp.
    assert (Hnext : instance_type_of limit_name = next_dotted limit_name).
    { unfold instance_type_of. fold (normalize "ec2" limit_name).
      by apply String.eqb_neq in Hp as ->. }
    rewrite Hnext. split.
    + intros before word after. apply next_dotted_first.
    + apply next_dotted_none.
  - intros it region l w Hit. by apply update_ec2_on_demand_single.
  - intros Hbad. split.
    + intros region limits l w Hl.
      by apply (update_ec2_on_demand_raises region limits limit_name l).
    + intros Hod checker c1 c2 region w report service svc_limits l
             Hfu Hgl Hsvc Hl.
      split; [apply update_returns|].
      rewrite update_log.
      by rewrite (update_body_malformed checker c1 c2 region w report service
                    svc_limits limit_name l).
Qed.

Lemma on_demand_instance_type_witness :
  let report : gmap string (gmap string AwsLimit) :=
    {[ "EC2" := {[ "Running On-Demand All F instances" := mkLimit 8 [] ]} ]} in
  (normalize "ec2" "Running On-Demand EC2 Instances" = ec2_path /\
   instance_type_of "Running On-Demand EC2 Instances" = inr "total") /\
  (normalize "ec2" "Running On-Demand m5.large Instances" <> ec2_path /\
   instance_type_of "Running On-Demand m5.large Instances" = inr "m5.large") /\
  (instance_type_of "Running On-Demand All F instances" = inl StopIteration /\
   log (snd (snd (update [Gives report] "us-east-1" empty_world)))
     = [StopIteration]).
Proof.
  intros report.
  destruct (on_demand_instance_type (C := list Outcome)
              "Running On-Demand EC2 Instances") as (Htotal & _).
  destruct (on_demand_instance_type (C := list Outcome)
              "Running On-Demand m5.large Instances") as (_ & Hword & _).
  destruct (on_demand_instance_type (C := list Outcome)
              "Running On-Demand All F instances") as (_ & Hnone & _ & Hraise).
  assert (H1 : normalize "ec2" "Running On-Demand EC2 Instances" = ec2_path)
    by (vm_compute; reflexivity).
  assert (H2 : normalize "ec2" "Running On-Demand m5.large Instances"
               <> ec2_path) by (vm_compute; discriminate).
  assert (H3 : normalize "ec2" "Running On-Demand All F instances"
               <> ec2_path) by (vm_compute; discriminate).
  assert (Hplain : forall t, contains "." t = false -> ~ dotted t)
    by (unfold dotted; intros t E; rewrite E; discriminate).
  assert (H4 : instance_type_of "Running On-Demand All F instances"
               = inl StopIteration).
  { destruct (Hnone H3) as [_ Hn]. apply Hn.
    change (words "Running On-Demand All F instances")
      with ["Running"; "On-Demand"; "All"; "F"; "instances"].
    repeat (constructor; [apply Hplain; vm_compute; reflexivity|]).
    constructor. }
  split; [split; [exact H1 | exact (Htotal H1)]|].
  split.
  - split; [exact H2|].
    destruct (Hword H2) as [Hfirst _].
    apply (Hfirst ["Running"; "On-Demand"] "m5.large" ["Instances"]).
    + vm_compute. reflexivity.
    + repeat (constructor; [apply Hplain; vm_compute; reflexivity|]).
      constructor.
    + vm_compute. reflexivity.
  - split; [exact H4|].
    destruct (Hraise H4) as [_ Hlog].
    assert (Hod : contains "on-demand"
                    (lower "Running On-Demand All F instances") = true)
      by (vm_compute; reflexivity).
    destruct (Hlog Hod [Gives report] [Gives report] [] "us-east-1"
                   empty_world report "EC2"
                   {[ "Running On-Demand All F instances" := mkLimit 8 [] ]}
                   (mkLimit 8 []))
      as [_ Hl]; [reflexivity | reflexivity | | | exact Hl].
    + vm_compute. reflexivity.
    + vm_compute. reflexivity.
Defined.

(** ** The override parser *)

Lemma override_line_cons r s l v :
  override_line r s l v = r +:+ String "/" (s +:+ String "/" (l +:+ String "=" v)).
Proof. reflexivity. Qed.

Lemma override_line_at_equals r s l v :
  override_line r s l v = (r +:+ String "/" (s +:+ String "/" l)) +:+ String "=" v.
Proof.
  rewrite override_line_cons, string_app_assoc.
  change (String "/" (s +:+ String "/" l) +:+ String "=" v)
    with (String "/" ((s +:+ String "/" l) +:+ String "=" v)).
  by rewrite string_app_assoc.
Qed.

Lemma contains_has_char c s : contains (String c EmptyString) s = has_char c s.
Proof. reflexivity. Qed.

Lemma init_well_formed r s l v n :
  has_char "/" r = false -> has_char "=" r = false ->
  has_char "/" s = false -> has_char "=" s = false ->
  has_char "/" l = false -> has_char "=" l = false ->
  int v = inr n ->
  contains "=" (override_line r s l v) = true /\
  Limit_Override_init (override_line r s l v) = inr (mkOverride r s l n).
Proof.
  intros Hr1 Hr2 Hs1 Hs2 Hl1 Hl2 Hv.
  pose proof (int_no_equals v n Hv) as Hv2.
  assert (Hbefore : has_char "=" (r +:+ String "/" (s +:+ String "/" l)) = false).
  { rewrite has_char_app, Hr2, has_char_cons, has_char_app, Hs2, has_char_cons,
      Hl2. reflexivity. }
  split.
  - change (contains "=" (override_line r s l v))
      with (has_char "=" (override_line r s l v)).
    rewrite override_line_at_equals, has_char_app, has_char_cons.
    cbn. by rewrite orb_true_r.
  - unfold Limit_Override_init.
    assert (Hslash : split "/" (override_line r s l v) =
                     r :: s :: split "/" (l +:+ String "=" v)).
    { rewrite override_line_cons, (split_at_sep "/" r) by done.
      by rewrite (split_at_sep "/" s). }
    assert (Heq : split "=" (override_line r s l v) =
                  [r +:+ String "/" (s +:+ String "/" l); v]).
    { rewrite override_line_at_equals, split_at_sep by done.
      by rewrite split_clean. }
    assert (Hparts : split "/" (r +:+ String "/" (s +:+ String "/" l)) = [r; s; l]).
    { rewrite (split_at_sep "/" r) by done.
      rewrite (split_at_sep "/" s) by done. by rewrite split_clean. }
    rewrite Hslash, Heq. cbn [index nth_error and_then].
    rewrite Hparts. cbn [index nth_error and_then]. rewrite Hv. reflexivity.
Qed.

Lemma collect_skip item rest acc :
  contains "=" item = false ->
  collect_overrides (item :: rest) acc = collect_overrides rest acc.
Proof. intros Hno. cbn [collect_overrides]. by rewrite Hno. Qed.

Lemma collect_skip_all lines acc :
  Forall (fun item => contains "=" item = false) lines ->
  collect_overrides lines acc = inr acc.
Proof.
  intros Hall. revert acc. induction Hall as [|item lines Hno Hall IH];
    intros acc; [reflexivity|].
  by rewrite collect_skip.
Qed.

Lemma collect_take item rest acc o :
  contains "=" item = true -> Limit_Override_init item = inr o ->
  collect_overrides (item :: rest) acc = collect_overrides rest (add_new o acc).
Proof. intros Hq Ho. cbn [collect_overrides]. by rewrite Hq, Ho. Qed.

(** C7.  A line without an equals sign, blank lines included, gives no
    record and raises nothing: the parser goes on as if the line were not
    there.  A line region/service/limit-name=integer, in which region, service
    and limit name contain neither a slash nor an equals sign, qualifies and
    gives the record of exactly these four fields.  The line
    "us-east-1/ec2/On-Demand m5.large=50" gives us-east-1, ec2,
    "On-Demand m5.large" and 50. *)
Theorem override_parser_lines :
  (forall item rest acc,
     contains "=" item = false ->
     collect_overrides (item :: rest) acc = collect_overrides rest acc) /\
  (forall lines acc,
     Forall (fun item => contains "=" item = false) lines ->
     collect_overrides lines acc = inr acc) /\
  (forall r s l v n rest acc,
     contains "/" r = false -> contains "=" r = false ->
     contains "/" s = false -> contains "=" s = false ->
     contains "/" l = false -> contains "=" l = false ->
     int v = inr n ->
     Limit_Override_init (override_line r s l v) = inr (mkOverride r s l n) /\
     collect_overrides (override_line r s l v :: rest) acc =
     collect_overrides rest (add_new (mkOverride r s l n) acc)) /\
  Limit_Override_init "us-east-1/ec2/On-Demand m5.large=50"
    = inr (mkOverride "us-east-1" "ec2" "On-Demand m5.large" 50) /\
  match parse_overrides
          (text_of ["us-east-1/ec2/On-Demand m5.large=50"; ""; "no-equals-sign"])
  with
  | inr set => records set
  | inl _ => []
  end = [mkOverride "us-east-1" "ec2" "On-Demand m5.large" 50].
Proof.
  split; [|split; [|split; [|split]]].
  - apply collect_skip.
  - apply collect_skip_all.
  - intros r s l v n rest acc Hr1 Hr2 Hs1 Hs2 Hl1 Hl2 Hv.
    destruct (init_well_formed r s l v n) as [Hq Ho]; try assumption.
    split; [exact Ho | by apply collect_take].
  - vm_compute. reflexivity.
  - vm_compute. reflexivity.
Qed.

Lemma override_parser_lines_witness :
  contains "=" "no-equals-sign" = false /\
  collect_overrides ["no-equals-sign"; "a/b/c=7"] empty_overrides =
  collect_overrides ["a/b/c=7"] empty_overrides /\
  collect_overrides [""; "no-equals-sign"] empty_overrides
    = inr empty_overrides /\
  int " +1_000 " = inr 1000 /\
  Limit_Override_init (override_line "eu-west-1" "RDS" "DB instances" " +1_000 ")
    = inr (mkOverride "eu-west-1" "RDS" "DB instances" 1000).
Proof.
  destruct override_parser_lines as (Hskip & Hall & Hline & _).
  assert (H0 : contains "=" "no-equals-sign" = false) by (vm_compute; reflexivity).
  assert (Hint : int " +1_000 " = inr 1000) by (vm_compute; reflexivity).
  split; [exact H0|]. split; [exact (Hskip _ _ _ H0)|].
  split.
  - apply Hall. repeat constructor.
  - split; [exact Hint|].
    apply (Hline "eu-west-1" "RDS" "DB instances" " +1_000 " 1000 []
                 empty_overrides); solve [vm_compute; reflexivity | exact Hint].
Defined.

(** *** Lines that raise *)

Lemma split_length_app sep a b :
  (length (split sep a) <= length (split sep (a +:+ b)))%nat.
Proof.
  induction a as [|c a IH].
  - change (EmptyString +:+ b) with b.
    pose proof (split_not_nil sep b). destruct (split sep b); [done|].
    cbn. lia.
  - change (String c a +:+ b) with (String c (a +:+ b)). cbn [split].
    destruct (Ascii.eqb c sep); [cbn [length]; lia|].
    pose proof (split_not_nil sep a). pose proof (split_not_nil sep (a +:+ b)).
    destruct (split sep a), (split sep (a +:+ b)); try done; cbn in *; lia.
Qed.

(** A string is its first field, or its first field, the separator and the
    rest. *)
Lemma split_first_field sep s :
  exists f fs, split sep s = f :: fs /\
    (s = f \/ exists r, s = f +:+ String sep r).
Proof.
  induction s as [|c s IH].
  - exists EmptyString, []. split; [reflexivity | by left].
  - cbn [split]. destruct (Ascii.eqb c sep) eqn:Ec.
    + apply Ascii.eqb_eq in Ec as ->. exists EmptyString, (split sep s).
      split; [reflexivity|]. right. by exists s.
    + destruct IH as (f & fs & Hs & Hf). rewrite Hs.
      exists (String c f), fs. split; [reflexivity|].
      destruct Hf as [->|[r ->]]; [by left|]. right. by exists r.
Qed.

Lemma split_first_length sep1 sep2 s f fs :
  split sep1 s = f :: fs ->
  (length (split sep2 f) <= length (split sep2 s))%nat.
Proof.
  intros Hs. destruct (split_first_field sep1 s) as (f' & fs' & Hs' & Hf).
  rewrite Hs in Hs'. injection Hs' as <- <-.
  destruct Hf as [->|[r ->]]; [lia|]. apply split_length_app.
Qed.

Lemma index_lt {A} (l : list A) i d :
  (i < length l)%nat -> index l i = inr (nth i l d).
Proof.
  intros Hi. unfold index.
  destruct (nth_error l i) as [x|] eqn:E.
  - by rewrite (nth_error_nth _ _ d E).
  - apply nth_error_None in E. lia.
Qed.

Lemma index_ge {A} (l : list A) i :
  (length l <= i)%nat -> index l i = inl IndexError.
Proof. intros Hi. unfold index. by apply nth_error_None in Hi as ->. Qed.

Lemma int_exn s e : int s = inl e -> e = ValueError.
Proof.
  unfold int.
  destruct (match lstrip s with
            | String "+" r => int_unsigned r
            | String "-" r => Z.opp <$> int_unsigned r
            | t => int_unsigned t
            end); [done|]. by intros [= <-].
Qed.

Lemma init_cases item :
  contains "=" item = true ->
  Limit_Override_init item =
  if (length (split "/" (before_equals item)) <? 3)%nat then inl IndexError
  else match int (after_equals item) with
       | inr n => inr (override_of item n)
       | inl _ => inl ValueError
       end.
Proof.
  intros Hq. change (has_char "=" item = true) in Hq.
  apply split_length_has_char in Hq.
  unfold Limit_Override_init, override_of, before_equals, after_equals.
  destruct (split "=" item) as [|before fields] eqn:Heq; [cbn in Hq; lia|].
  pose proof (split_first_length "=" "/" item before fields Heq) as Hlen.
  rewrite (index_lt (before :: fields) 0 EmptyString) by (cbn; lia).
  rewrite (index_lt (before :: fields) 1 EmptyString) by (cbn in *; lia).
  pose proof (split_not_nil "/" item) as Hne.
  rewrite (index_lt (split "/" item) 0 EmptyString)
    by (destruct (split "/" item); [done | cbn; lia]).
  cbn [nth and_then].
  destruct (Nat.ltb_spec (length (split "/" before)) 3) as [Hlt|Hge].
  - rewrite (index_ge (split "/" before) 2) by lia.
    unfold index at 1. by destruct (nth_error (split "/" item) 1).
  - rewrite (index_lt (split "/" item) 1 EmptyString) by lia.
    rewrite (index_lt (split "/" before) 2 EmptyString) by lia.
    cbn [and_then].
    destruct (int (nth 0 fields EmptyString)) as [e|n] eqn:Ei; [|reflexivity].
    cbn [and_then]. by rewrite (int_exn _ _ Ei).
Qed.

Lemma collect_raises item lines1 lines2 acc e :
  contains "=" item = true -> Limit_Override_init item = inl e ->
  exists e', collect_overrides (lines1 ++ item :: lines2) acc = inl e'.
Proof.
  intros Hq He. revert acc. induction lines1 as [|x lines1 IH]; intros acc.
  - exists e. cbn [app collect_overrides]. by rewrite Hq, He.
  - cbn [app collect_overrides]. destruct (contains "=" x); [|apply IH].
    destruct (Limit_Override_init x) as [e'|o]; [by exists e' | apply IH].
Qed.

Lemma parse_raises item text e :
  contains "=" item = true -> Limit_Override_init item = inl e ->
  item ∈ split newline text ->
  exists e', parse_overrides text = inl e'.
Proof.
  intros Hq He Hin. apply list_elem_of_split in Hin as (l1 & l2 & Hl).
  unfold parse_overrides. rewrite Hl. by eapply collect_raises.
Qed.

(** C8, as the code has it.  A qualifying line raises IndexError when the
    text before its first equals sign has fewer than three parts separated
    by slashes, and ValueError when it has three or more and the text
    between the first equals sign and the next (or the end of the line) is
    not an integer; in every other case it is accepted, parts beyond the
    third and text after a second equals sign being left out.  A line that
    raises makes the parsing of the whole text, and the reading of the
    configuration, raise. *)
Theorem override_line_errors (item : string) :
  contains "=" item = true ->
  ((length (split "/" (before_equals item)) < 3)%nat ->
   Limit_Override_init item = inl IndexError) /\
  ((3 <= length (split "/" (before_equals item)))%nat ->
   Limit_Override_init item =
   match int (after_equals item) with
   | inr n => inr (override_of item n)
   | inl _ => inl ValueError
   end) /\
  (forall e, Limit_Override_init item = inl e ->
     (forall text, item ∈ split newline text ->
        exists e', parse_overrides text = inl e') /\
     (forall cfg, item ∈ split newline (overrides_text cfg) ->
        exists e', _get_configs cfg = inl e')).
Proof.
  intros Hq. pose proof (init_cases item Hq) as Hinit.
  split; [|split].
  - intros Hlt. rewrite Hinit. by apply Nat.ltb_lt in Hlt as ->.
  - intros Hge. rewrite Hinit. by apply Nat.ltb_ge in Hge as ->.
  - intros e He. split.
    + intros text Hin. by eapply parse_raises.
    + intros cfg Hin. unfold _get_configs.
      destruct (int (port_text cfg)) as [e1|port]; [by exists e1|].
      destruct (int (interval_text cfg)) as [e2|interval]; [by exists e2|].
      cbn [and_then].
      destruct (parse_raises item (overrides_text cfg) e Hq He Hin) as [e' He'].
      exists e'. by rewrite He'.
Qed.

Lemma override_line_errors_witness :
  (contains "=" "bad/format=notanumber" = true /\
   (length (split "/" (before_equals "bad/format=notanumber")) < 3)%nat /\
   Limit_Override_init "bad/format=notanumber" = inl IndexError) /\
  (contains "=" "a/b/c=x" = true /\
   (3 <= length (split "/" (before_equals "a/b/c=x")))%nat /\
   Limit_Override_init "a/b/c=x" = inl ValueError /\
   exists e, parse_overrides (text_of ["r/s/l=1"; "a/b/c=x"]) = inl e).
Proof.
  assert (Hq1 : contains "=" "bad/format=notanumber" = true)
    by (vm_compute; reflexivity).
  assert (Hq2 : contains "=" "a/b/c=x" = true) by (vm_compute; reflexivity).
  assert (Hl1 : (length (split "/" (before_equals "bad/format=notanumber")) < 3)%nat)
    by (vm_compute; lia).
  assert (Hl2 : (3 <= length (split "/" (before_equals "a/b/c=x")))%nat)
    by (vm_compute; lia).
  destruct (override_line_errors "bad/format=notanumber" Hq1) as (Hidx & _).
  destruct (override_line_errors "a/b/c=x" Hq2) as (_ & Hval & Hup).
  split; [split; [exact Hq1 | split; [exact Hl1 | exact (Hidx Hl1)]]|].
  assert (He : Limit_Override_init "a/b/c=x" = inl ValueError)
    by (rewrite (Hval Hl2); vm_compute; reflexivity).
  split; [exact Hq2|]. split; [exact Hl2|]. split; [exact He|].
  destruct (Hup ValueError He) as [Htext _]. apply Htext.
  vm_compute. apply list_elem_of_further, list_elem_of_here.
Defined.

(** C8 as stated fails: a line with a fourth part before the equals sign,
    and a line with a second equals sign after the integer, are accepted. *)
Lemma surplus_text_accepted :
  (contains "=" "r/s/l/x=5" = true /\ ~ spec_shape "r/s/l/x=5" /\
   Limit_Override_init "r/s/l/x=5" = inr (mkOverride "r" "s" "l" 5)) /\
  (contains "=" "r/s/l=5=6" = true /\ ~ spec_shape "r/s/l=5=6" /\
   Limit_Override_init "r/s/l=5=6" = inr (mkOverride "r" "s" "l" 5)).
Proof.
  split; (split; [vm_compute; reflexivity|]);
    (split; [|vm_compute; reflexivity]).
  - intros (before & after & n & Hitem & Hb & Hlen & Hint).
    assert (Hs : split "=" "r/s/l/x=5" = ["r/s/l/x"; "5"]) by reflexivity.
    rewrite Hitem, split_at_sep in Hs by exact Hb.
    injection Hs as -> _. vm_compute in Hlen. discriminate.
  - intros (before & after & n & Hitem & Hb & Hlen & Hint).
    assert (Hs : split "=" "r/s/l=5=6" = ["r/s/l"; "5"; "6"]) by reflexivity.
    rewrite Hitem, split_at_sep in Hs by exact Hb.
    injection Hs as _ Hafter.
    assert (Ha : has_char "=" after = true)
      by (apply split_length_has_char; rewrite Hafter; cbn; lia).
    by rewrite (int_no_equals after n Hint) in Ha.
Qed.

(** *** The set of overrides *)

Lemma add_all_store os acc : store (add_all os acc) = store acc ++ os.
Proof.
  revert acc. induction os as [|o os IH]; intros acc.
  - cbn. by rewrite app_nil_r.
  - cbn [add_all fold_left]. fold (add_all os (add_new o acc)).
    rewrite IH. cbn [add_new store]. by rewrite <- app_assoc.
Qed.

Lemma add_new_all_members o s : all_members s -> all_members (add_new o s).
Proof.
  intros Hs a. unfold add_new. cbn [members store].
  rewrite elem_of_union, elem_of_singleton, (Hs a), length_app. cbn. lia.
Qed.

Lemma add_all_all_members os acc :
  all_members acc -> all_members (add_all os acc).
Proof.
  revert acc. induction os as [|o os IH]; intros acc Hacc; [exact Hacc|].
  cbn [add_all fold_left]. apply IH. by apply add_new_all_members.
Qed.

Lemma empty_all_members : all_members empty_overrides.
Proof. intros a. cbn. rewrite elem_of_empty. lia. Qed.

Lemma lookup_all_from {A} (p l : list A) :
  omap (fun a => (p ++ l) !! a) (seq (length p) (length l)) = l.
Proof.
  revert p. induction l as [|x l IH]; intros p; [reflexivity|].
  cbn [length seq omap list_omap].
  rewrite (list_lookup_middle p l x (length p)) by reflexivity.
  f_equal. specialize (IH (p ++ [x])).
  rewrite <- app_assoc, length_app in IH. cbn in IH.
  by rewrite Nat.add_1_r in IH.
Qed.

Lemma members_elements s :
  all_members s -> elements (members s) ≡ₚ seq 0 (length (store s)).
Proof.
  intros Hs. apply NoDup_Permutation.
  - apply NoDup_elements.
  - apply NoDup_seq.
  - intros a. rewrite elem_of_elements, (Hs a), elem_of_seq. lia.
Qed.

Lemma records_store s : all_members s -> records s ≡ₚ store s.
Proof.
  intros Hs. unfold records. rewrite (members_elements s Hs).
  pose proof (lookup_all_from [] (store s)) as Hall. cbn in Hall.
  by rewrite Hall.
Qed.

Lemma members_size s : all_members s -> size (members s) = length (store s).
Proof.
  intros Hs. unfold size, set_size. cbn.
  rewrite (members_elements s Hs). apply length_seq.
Qed.

Lemma collect_spec lines acc s :
  collect_overrides lines acc = inr s ->
  Forall (fun item => is_Some (record_of item)) (qualifying lines) /\
  s = add_all (omap record_of (qualifying lines)) acc.
Proof.
  revert acc. induction lines as [|item lines IH]; intros acc Hs.
  - cbn in Hs. injection Hs as <-. by split; [constructor|].
  - cbn [collect_overrides] in Hs. unfold qualifying. cbn [List.filter].
    fold (qualifying lines). destruct (contains "=" item); [|by apply IH].
    destruct (Limit_Override_init item) as [e|o] eqn:Eo; [done|].
    cbn [and_then] in Hs. destruct (IH _ Hs) as [Hall ->].
    assert (Hr : record_of item = Some o) by (unfold record_of; by rewrite Eo).
    split; [constructor; [by rewrite Hr | exact Hall]|].
    cbn [omap list_omap]. by rewrite Hr.
Qed.

Lemma collect_ok lines acc :
  Forall (fun item => is_Some (record_of item)) (qualifying lines) ->
  collect_overrides lines acc
    = inr (add_all (omap record_of (qualifying lines)) acc).
Proof.
  revert acc. induction lines as [|item lines IH]; intros acc Hall;
    [reflexivity|].
  cbn [collect_overrides]. unfold qualifying in *. cbn [List.filter] in *.
  destruct (contains "=" item); [|by apply IH].
  apply Forall_cons in Hall as [[o Ho] Hall].
  unfold record_of in Ho.
  destruct (Limit_Override_init item) as [e|o'] eqn:Eo; [done|].
  injection Ho as ->. cbn [and_then]. rewrite (IH _ Hall).
  cbn [omap list_omap]. unfold record_of at 2. by rewrite Eo.
Qed.

Lemma qualifying_Permutation lines lines' :
  lines ≡ₚ lines' -> qualifying lines ≡ₚ qualifying lines'.
Proof.
  unfold qualifying. induction 1 as [|x l l' Hp IH|x y l|l l' l'' H1 IH1 H2 IH2].
  - reflexivity.
  - cbn. destruct (contains "=" x); [by constructor | exact IH].
  - cbn. destruct (contains "=" x), (contains "=" y);
      first [apply perm_swap | reflexivity].
  - by etransitivity.
Qed.

Lemma omap_all_length {A B} (f : A -> option B) l :
  Forall (fun x => is_Some (f x)) l -> length (omap f l) = length l.
Proof.
  induction 1 as [|x l [y Hy] Hl IH]; [reflexivity|].
  cbn [omap list_omap]. rewrite Hy. cbn. by rewrite IH.
Qed.

(** C9, as the code has it.  The overrides are compared as objects, not by
    their fields: the set holds one object for every qualifying line, in
    whatever number the same record occurs.  The records it holds are those
    of the qualifying lines, each as many times as lines give it, and they
    are the same, up to order, when the lines come in another order. *)
Theorem overrides_one_per_line (text : string) (s : OverrideSet) :
  parse_overrides text = inr s ->
  store s = omap record_of (qualifying (split newline text)) /\
  size (members s) = length (qualifying (split newline text)) /\
  records s ≡ₚ omap record_of (qualifying (split newline text)) /\
  (forall text',
     split newline text' ≡ₚ split newline text ->
     exists s', parse_overrides text' = inr s' /\ records s' ≡ₚ records s).
Proof.
  unfold parse_overrides. intros Hs.
  destruct (collect_spec _ _ _ Hs) as [Hall ->].
  assert (Hm : forall os, all_members (add_all os empty_overrides))
    by (intros os; apply add_all_all_members, empty_all_members).
  assert (Hst : forall os, store (add_all os empty_overrides) = os)
    by (intros os; by rewrite add_all_store).
  split; [apply Hst|]. split; [|split].
  - rewrite members_size, Hst by apply Hm. by apply omap_all_length.
  - rewrite records_store, Hst by apply Hm. reflexivity.
  - intros text' Hperm. apply qualifying_Permutation in Hperm.
    assert (Hall' : Forall (fun item => is_Some (record_of item))
                           (qualifying (split newline text')))
      by (by rewrite Hperm).
    eexists. split; [by apply collect_ok|].
    rewrite !records_store, !Hst by apply Hm. by rewrite Hperm.
Qed.

Lemma overrides_one_per_line_witness :
  let text := text_of ["b/c/d=2"; "x"; "a/b/c=1"; "b/c/d=2"] in
  let text' := text_of ["a/b/c=1"; "b/c/d=2"; "b/c/d=2"; "x"] in
  let s := mkOverrideSet
             [mkOverride "b" "c" "d" 2; mkOverride "a" "b" "c" 1;
              mkOverride "b" "c" "d" 2]
             ({[ 2%nat ]} ∪ ({[ 1%nat ]} ∪ ({[ 0%nat ]} ∪ ∅))) in
  parse_overrides text = inr s /\
  size (members s) = 3%nat /\
  exists s', parse_overrides text' = inr s' /\ records s' ≡ₚ records s.
Proof.
  intros text text' s.
  assert (Hs : parse_overrides text = inr s) by (vm_compute; reflexivity).
  destruct (overrides_one_per_line text s Hs) as (_ & Hsize & _ & Horder).
  split; [exact Hs|]. split.
  - rewrite Hsize. vm_compute. reflexivity.
  - apply Horder.
    change (split newline text')
      with ["a/b/c=1"; "b/c/d=2"; "b/c/d=2"; "x"].
    change (split newline text)
      with ["b/c/d=2"; "x"; "a/b/c=1"; "b/c/d=2"].
    etransitivity;
      [|apply (Permutation_middle ["b/c/d=2"; "x"] ["b/c/d=2"] "a/b/c=1")].
    cbn [app]. do 2 apply perm_skip. apply perm_swap.
Defined.

(** C9 as stated fails: two lines with the same four fields give two
    members of the set. *)
Lemma duplicate_overrides_kept :
  match parse_overrides (text_of ["r/s/l=1"; "r/s/l=1"]) with
  | inr s =>
      size (members s) = 2%nat /\
      records s = [mkOverride "r" "s" "l" 1; mkOverride "r" "s" "l" 1] /\
      ~ collapsed s
  | inl _ => False
  end.
Proof.
  assert (Hp : parse_overrides (text_of ["r/s/l=1"; "r/s/l=1"]) =
               inr (mkOverrideSet
                      [mkOverride "r" "s" "l" 1; mkOverride "r" "s" "l" 1]
                      ({[ 1%nat ]} ∪ ({[ 0%nat ]} ∪ ∅))))
    by (vm_compute; reflexivity).
  rewrite Hp. split; [vm_compute; reflexivity|].
  split; [vm_compute; reflexivity|].
  intros Hc.
  assert (H01 : 0%nat = 1%nat); [|discriminate].
  apply (Hc 0%nat 1%nat (mkOverride "r" "s" "l" 1)); cbn;
    first [set_solver | reflexivity].
Qed.

(* ================================================================== *)
(** * Further properties of the code *)
(* ================================================================== *)

(** ** An update without a report *)

Section NoReport.

Context {C : Type} `{AwsLimitChecker C}.

(** X1.  When the refresh of the usage fails, or the reading of the limits
    fails, the update leaves every gauge as it was, writes that one exception
    to the log and records one observation; the checker is left in the state
    the failing call gave it.  A report without any service changes nothing
    but the number of observations. *)
Theorem update_without_report (checker c1 c2 : C) (region : string)
    (w : World) (e : exn) :
  (find_usage checker = (inl e, c1) ->
   update checker region w =
   (inr tt, (c1, mkWorld (gauges w) (log w ++ [e])
                         (Datatypes.S (observations w))))) /\
  (find_usage checker = (inr tt, c1) -> get_limits c1 = (inl e, c2) ->
   update checker region w =
   (inr tt, (c2, mkWorld (gauges w) (log w ++ [e])
                         (Datatypes.S (observations w))))) /\
  (find_usage checker = (inr tt, c1) -> get_limits c1 = (inr ∅, c2) ->
   update checker region w =
   (inr tt, (c2, mkWorld (gauges w) (log w)
                         (Datatypes.S (observations w))))).
Proof.
  split; [|split].
  - intros Hfu. unfold update, timed, try_except, update_body, bind,
      on_checker, on_world, logging_exception. cbn [fst snd].
    by rewrite Hfu.
  - intros Hfu Hgl. unfold update, timed, try_except, update_body, bind,
      on_checker, on_world, logging_exception. cbn [fst snd].
    rewrite Hfu. cbn [fst snd]. by rewrite Hgl.
  - intros Hfu Hgl. unfold update, timed, try_except, update_body, bind,
      on_checker. cbn [fst snd].
    rewrite Hfu. cbn [fst snd]. rewrite Hgl, sorted_items_empty.
    cbn. by destruct w.
Qed.

End NoReport.

Lemma update_without_report_witness :
  let w := mkWorld {[ "s3_buckets" := mkGauge "s3_buckets" "" ["region"; "type"] ∅ ]}
                   [] 4 in
  update [RefreshFails (Backend "throttled"); Gives ∅] "us-east-1" w =
    (inr tt, ([Gives ∅], mkWorld (gauges w) [Backend "throttled"] 5)) /\
  update [ReadFails (Backend "denied")] "us-east-1" w =
    (inr tt, ([], mkWorld (gauges w) [Backend "denied"] 5)) /\
  update [Gives ∅] "us-east-1" w = (inr tt, ([], mkWorld (gauges w) [] 5)).
Proof.
  intros w.
  destruct (update_without_report
              [RefreshFails (Backend "throttled"); Gives ∅] [Gives ∅] []
              "us-east-1" w (Backend "throttled")) as (H1 & _ & _).
  destruct (update_without_report
              [ReadFails (Backend "denied")] [ReadFails (Backend "denied")] []
              "us-east-1" w (Backend "denied")) as (_ & H2 & _).
  destruct (update_without_report [Gives ∅] [Gives ∅] [] "us-east-1" w
              IndexError) as (_ & _ & H3).
  split; [exact (H1 eq_refl)|]. split; [exact (H2 eq_refl eq_refl)|].
  exact (H3 eq_refl eq_refl).
Defined.

(** ** Observations and log records of the polling loop *)

Global Instance same_observations_refl : Reflexive same_observations.
Proof. by intros w. Qed.

Global Instance same_observations_trans : Transitive same_observations.
Proof. intros a b c Hab Hbc. unfold same_observations in *. congruence. Qed.

Lemma gauge_same_observations path extra :
  always same_observations (gauge path extra).
Proof.
  intros w. unfold gauge, same_observations.
  by destruct (gauge_in path extra (gauges w)).
Qed.

Lemma labels_set_same_observations g kw v :
  always same_observations (labels_set g kw v).
Proof. by intros w. Qed.

Lemma update_one_service_same_observations region service svc_limits :
  always same_observations (update_one_service region service svc_limits).
Proof.
  unfold update_one_service, update_other_limits, update_service,
    update_ec2_on_demand.
  destruct (decide (ec2_instances_limits svc_limits = ∅)); step_always;
    first [apply gauge_same_observations | apply labels_set_same_observations].
Qed.

Lemma logged_length {A} (r : exn + A) : (length (logged r) <= 1)%nat.
Proof. destruct r; cbn; lia. Qed.

Section Counting.

Context {C : Type} `{AwsLimitChecker C}.

Lemma update_observations (checker : C) region w :
  observations (snd (snd (update checker region w)))
    = Datatypes.S (observations w).
Proof.
  rewrite update_unfold. cbn. f_equal.
  apply (update_body_always same_observations region
           (fun service svc_limits =>
              update_one_service_same_observations region service svc_limits)
           (checker, w)).
Qed.

Lemma all_regions_counts (checkers : list (string * C)) w :
  map fst (fst (all_regions checkers w)) = map fst checkers /\
  observations (snd (all_regions checkers w))
    = (observations w + length checkers)%nat /\
  log_grows_by (length checkers) w (snd (all_regions checkers w)).
Proof.
  revert w. induction checkers as [|[region checker] rest IH]; intros w.
  - cbn. split; [done|]. split; [lia|]. exists []. by rewrite app_nil_r.
  - cbn [all_regions fst snd map length].
    destruct (IH (snd (snd (update checker region w))))
      as (Hk & Ho & added & Hl & Hn).
    split; [by rewrite Hk|]. split.
    + rewrite Ho, update_observations. lia.
    + exists (logged (fst (update_body region (checker, w))) ++ added).
      rewrite Hl, update_log, length_app, <- app_assoc.
      split; [done|].
      pose proof (logged_length (fst (update_body region (checker, w)))).
      lia.
Qed.

Lemma poll_counting (n : nat) (checkers : list (string * C)) (w : World) :
  map fst (fst (snd (poll n checkers w))) = map fst checkers /\
  observations (snd (snd (poll n checkers w)))
    = (observations w + n * length checkers)%nat /\
  log_grows_by (n * length checkers) w (snd (snd (poll n checkers w))).
Proof.
  revert checkers w. induction n as [|n IH]; intros checkers w.
  - cbn. split; [done|]. split; [lia|]. exists []. by rewrite app_nil_r.
  - cbn [poll]. rewrite cycle_all_regions.
    destruct (all_regions_counts checkers w) as (Hk & Ho & added & Hl & Hn).
    destruct (all_regions checkers w) as [cs' w'] eqn:E. cbn [fst snd] in *.
    destruct (IH cs' w') as (Hk' & Ho' & added' & Hl' & Hn').
    assert (Hlen : length cs' = length checkers)
      by (by rewrite <- (length_map fst cs'), Hk, length_map).
    rewrite Hlen in *.
    split; [congruence|]. split; [rewrite Ho', Ho; lia|].
    exists (added ++ added').
    rewrite Hl', Hl, length_app, <- app_assoc. split; [done | lia].
Qed.

(** X2.  The polling loop counts.  After [n] passes over the checkers, the
    regions are the same in the same order, the summary has one observation
    more for every pass and every region, whether its update failed or not,
    and the log has kept all its records and has gained at most one for
    every pass and every region. *)
Theorem poll_counts (n : nat) (checkers : list (string * C)) (w : World) :
  let s := snd (poll n checkers w) in
  map fst (fst s) = map fst checkers /\
  observations (snd s) = (observations w + n * length checkers)%nat /\
  log_grows_by (n * length checkers) w (snd s).
Proof. cbv zeta. apply poll_counting. Qed.

End Counting.

(** ** What the polling loop keeps in the registry *)

Section Kept.

Context {C : Type} `{AwsLimitChecker C}.
Context (R : World -> World -> Prop) `{!Reflexive R, !Transitive R}.
Hypothesis translation :
  forall region service svc_limits,
    always R (update_one_service region service svc_limits).
Hypothesis gauges_only :
  forall w w' l o, R w w' -> R w (mkWorld (gauges w') l o).

Lemma update_keeps (checker : C) region w :
  R w (snd (snd (update checker region w))).
Proof.
  rewrite update_unfold. cbn [snd]. apply gauges_only.
  apply (update_body_always R region (translation region) (checker, w)).
Qed.

Lemma all_regions_keeps (checkers : list (string * C)) w :
  R w (snd (all_regions checkers w)).
Proof.
  revert w. induction checkers as [|[region checker] rest IH]; intros w;
    [reflexivity|].
  cbn [all_regions snd]. etransitivity; [apply update_keeps | apply IH].
Qed.

Lemma poll_keeps n (checkers : list (string * C)) w :
  R w (snd (snd (poll n checkers w))).
Proof.
  revert checkers w. induction n as [|n IH]; intros checkers w; [reflexivity|].
  cbn [poll]. rewrite cycle_all_regions.
  pose proof (all_regions_keeps checkers w) as Hc.
  destruct (all_regions checkers w) as [cs' w']. cbn [snd] in Hc.
  etransitivity; [exact Hc | apply IH].
Qed.

End Kept.

Global Instance keeps_samples_refl : Reflexive keeps_samples.
Proof. intros gs p g kw v Hg Hv. eauto. Qed.

Global Instance keeps_samples_trans : Transitive keeps_samples.
Proof.
  intros g1 g2 g3 H12 H23 p g kw v Hg Hv.
  destruct (H12 p g kw v Hg Hv) as (g' & v' & Hg' & Hv'). eauto.
Qed.

Global Instance samples_kept_refl : Reflexive samples_kept.
Proof. intros w. unfold samples_kept. reflexivity. Qed.

Global Instance samples_kept_trans : Transitive samples_kept.
Proof. intros a b c Hab Hbc. unfold samples_kept in *. by etransitivity. Qed.

Lemma gauge_samples_kept path extra : always samples_kept (gauge path extra).
Proof.
  intros w. unfold gauge, samples_kept.
  pose proof (gauge_in_subseteq path extra (gauges w)) as Hsub.
  destruct (gauge_in path extra (gauges w)) as [h gs]. cbn in *.
  intros p g kw v Hg Hv. exists g, v. split; [|done].
  by eapply lookup_weaken.
Qed.

Lemma labels_set_samples_kept h kw0 v0 : always samples_kept (labels_set h kw0 v0).
Proof.
  intros w p g kw v Hg Hv. cbn.
  destruct (decide (h = p)) as [->|Hne].
  - exists (gauge_set kw0 v0 g). rewrite lookup_alter_eq, Hg. cbn.
    destruct (decide (kw0 = kw)) as [->|Hk].
    + exists v0. by rewrite lookup_insert_eq.
    + exists v. by rewrite lookup_insert_ne.
  - exists g, v. by rewrite lookup_alter_ne.
Qed.

Lemma update_one_service_samples_kept region service svc_limits :
  always samples_kept (update_one_service region service svc_limits).
Proof.
  unfold update_one_service, update_other_limits, update_service,
    update_ec2_on_demand.
  destruct (decide (ec2_instances_limits svc_limits = ∅)); step_always;
    first [apply gauge_samples_kept | apply labels_set_samples_kept].
Qed.

(** X3.  Nothing is evicted.  After any number of passes of the polling loop
    every gauge of the registry is still registered under its key, with the
    same name and the same label names, and every sample it had is still a
    sample, with the last value written to it. *)
Theorem poll_evicts_nothing {C : Type} `{AwsLimitChecker C} (n : nat)
    (checkers : list (string * C)) (w : World) :
  extends (gauges w) (gauges (snd (snd (poll n checkers w)))) /\
  keeps_samples (gauges w) (gauges (snd (snd (poll n checkers w)))).
Proof.
  split.
  - apply (poll_keeps gauges_extend); [apply update_one_service_extends|].
    by intros w0 w' l o Hw.
  - apply (poll_keeps samples_kept); [apply update_one_service_samples_kept|].
    by intros w0 w' l o Hw.
Qed.

(** ** The shape of the registry *)

Global Instance keeps_registry_ok_refl : Reflexive keeps_registry_ok.
Proof. by intros w Hw. Qed.

Global Instance keeps_registry_ok_trans : Transitive keeps_registry_ok.
Proof. intros a b c Hab Hbc Ha. by apply Hbc, Hab. Qed.

Lemma gauge_keeps_registry_ok path extra :
  extra = None \/ extra = Some ["instance_type"] ->
  always keeps_registry_ok (gauge path extra).
Proof.
  intros Hextra w Hok. unfold gauge.
  destruct (gauge_in path extra (gauges w)) as [h gs] eqn:Eg. cbn.
  unfold gauge_in in Eg.
  destruct (gauges w !! normalize_path path) eqn:E.
  - injection Eg as <- <-. exact Hok.
  - injection Eg as <- <-. intros p g Hg.
    destruct (decide (normalize_path path = p)) as [<-|Hne].
    + rewrite lookup_insert_eq in Hg. injection Hg as <-. cbn.
      split; [done|]. split.
      * apply normalize_path_fixes, normalize_path_settled.
      * destruct Hextra as [-> | ->]; [by left | by right].
    + rewrite lookup_insert_ne in Hg by done. by apply Hok.
Qed.

Lemma labels_set_keeps_registry_ok h kw v :
  always keeps_registry_ok (labels_set h kw v).
Proof.
  intros w Hok p g Hg. cbn in Hg.
  destruct (decide (h = p)) as [->|Hne].
  - rewrite lookup_alter_eq in Hg.
    destruct (gauges w !! p) as [g0|] eqn:E; [|done].
    injection Hg as <-. cbn. by apply Hok.
  - rewrite lookup_alter_ne in Hg by done. by apply Hok.
Qed.

Lemma update_one_service_keeps_registry_ok region service svc_limits :
  always keeps_registry_ok (update_one_service region service svc_limits).
Proof.
  unfold update_one_service, update_other_limits, update_service,
    update_ec2_on_demand.
  destruct (decide (ec2_instances_limits svc_limits = ∅)); step_always;
    first [ apply gauge_keeps_registry_ok; tauto
          | apply labels_set_keeps_registry_ok ].
Qed.

(** X4.  The registry keeps its shape.  If every gauge is stored under its
    own name, that name is a normalised path, and its labels are region and
    type with or without instance_type, then the same holds after any number
    of passes of the polling loop, whatever the reports and the failures.
    The empty registry of the start has that shape. *)
Theorem poll_keeps_registry_shape {C : Type} `{AwsLimitChecker C} (n : nat)
    (checkers : list (string * C)) (w : World) :
  registry_ok (gauges w) ->
  registry_ok (gauges (snd (snd (poll n checkers w)))).
Proof.
  apply (poll_keeps keeps_registry_ok).
  - apply update_one_service_keeps_registry_ok.
  - by intros w0 w' l o Hw.
Qed.

Lemma poll_keeps_registry_shape_witness :
  let ec2 : gmap string AwsLimit :=
    {[ "Running On-Demand m5.large instances" := mkLimit 20 [mkUsage 3 None];
       "Elastic IPs (VPC)" := mkLimit 5 [mkUsage 1 (Some "eip-1")] ]} in
  let checkers :=
    [("us-east-1", [Gives {[ "EC2" := ec2 ]}; RefreshFails (Backend "down")]);
     ("us-west-2", [ReadFails (Backend "denied"); Gives {[ "EC2" := ec2 ]}])] in
  registry_ok (gauges empty_world) /\
  registry_ok (gauges (snd (snd (poll 2 checkers empty_world)))).
Proof.
  intros ec2 checkers.
  assert (H0 : registry_ok (gauges empty_world)).
  { intros p g Hg. cbn in Hg. by rewrite lookup_empty in Hg. }
  split; [exact H0|].
  exact (poll_keeps_registry_shape 2 checkers empty_world H0).
Defined.

(** ** Writes and samples *)

Lemma gauge_eq g g' :
  g_name g = g_name g' -> g_documentation g = g_documentation g' ->
  g_labelnames g = g_labelnames g' -> g_samples g = g_samples g' -> g = g'.
Proof. destruct g, g'. cbn. by intros -> -> -> ->. Qed.

Lemma set_all_documentation ws g :
  g_documentation (set_all ws g) = g_documentation g.
Proof.
  revert g. induction ws as [|w ws IH]; intros g; [done|].
  by rewrite set_all_cons, IH.
Qed.

Lemma set_all_idempotent ws g : set_all ws (set_all ws g) = set_all ws g.
Proof.
  destruct (set_all_labelnames ws (set_all ws g)) as [Hl Hn].
  apply gauge_eq; [done | apply set_all_documentation | done |].
  apply map_eq. intros kw. rewrite set_all_samples.
  destruct (last_write kw ws) eqn:E; [|done].
  by rewrite set_all_samples, E.
Qed.

Lemma last_write_none kw ws :
  Forall (fun w => fst w <> kw) ws -> last_write kw ws = None.
Proof.
  induction 1 as [|w ws Hw Hws IH]; [reflexivity|].
  rewrite last_write_cons, last_write_from, IH. by rewrite decide_False.
Qed.

Lemma last_write_last kw v ws1 ws2 :
  Forall (fun w => fst w <> kw) ws2 ->
  last_write kw (ws1 ++ (kw, v) :: ws2) = Some v.
Proof.
  intros Hws2. induction ws1 as [|w ws1 IH].
  - cbn [app]. rewrite last_write_cons, last_write_from.
    rewrite (last_write_none kw ws2 Hws2). cbn. by rewrite decide_True.
  - cbn [app]. rewrite last_write_cons, last_write_from. by rewrite IH.
Qed.

Lemma last_write_head kw v ws :
  Forall (fun w => fst w <> kw) ws -> last_write kw ((kw, v) :: ws) = Some v.
Proof. apply (last_write_last kw v []). Qed.

Lemma update_service_sample path usage limit region w kw :
  sample_of (snd (update_service path usage limit region w))
            (normalize_path path) kw =
  match last_write kw (service_writes region usage limit) with
  | Some v => Some v
  | None => sample_of w (normalize_path path) kw
  end.
Proof.
  rewrite update_service_run. unfold sample_of, with_gauges. cbn [snd gauges].
  destruct (gauge_in_registered path None (gauges w)) as [g Hg].
  rewrite lookup_alter_eq, Hg. cbn [fmap option_fmap option_map mbind option_bind].
  rewrite set_all_samples.
  rewrite (gauge_in_samples path None (gauges w) g Hg).
  unfold samples_at. by destruct (gauges w !! normalize_path path).
Qed.

(** X5.  Writing the same limit twice is writing it once: a second
    [update_service] with the same path, usage, ceiling and region returns
    and leaves the world exactly as the first one left it.  Gauges are set,
    not accumulated. *)
Theorem update_service_idempotent (path : string) (usage : list AwsLimitUsage)
    (limit : Z) (region : string) (w : World) :
  let w1 := snd (update_service path usage limit region w) in
  update_service path usage limit region w1 = (inr tt, w1).
Proof.
  cbv zeta. rewrite !update_service_run. cbn [snd]. f_equal.
  destruct w as [gs lg ob]. unfold with_gauges. cbn [gauges log observations].
  f_equal.
  destruct (gauge_in_registered path None gs) as [g Hg].
  set (gs1 := snd (gauge_in path None gs)) in *.
  set (f := set_all (service_writes region usage limit)).
  assert (Hagain : snd (gauge_in path None (alter f (normalize_path path) gs1))
                   = alter f (normalize_path path) gs1).
  { unfold gauge_in. by rewrite lookup_alter_eq, Hg. }
  rewrite Hagain, alter_alter_eq. apply alter_ext.
  intros g0 _. apply set_all_idempotent.
Qed.

Lemma base_labels_inj region t t' :
  base_labels region t = base_labels region t' -> t = t'.
Proof. unfold base_labels. by intros [= ->]. Qed.

Lemma usage_writes_elsewhere region t usage :
  Forall (fun u => metric_type u <> t) usage ->
  Forall (fun w : write => fst w <> base_labels region t)
         (map (fun resource =>
                 (base_labels region (metric_type resource), get_value resource))
              usage).
Proof.
  induction 1 as [|u usage Hu Husage IH]; constructor; [|exact IH].
  cbn. intros Heq. by apply base_labels_inj in Heq.
Qed.

(** X6.  The ceiling can be overwritten by the usage.  After
    [update_service] the sample under type "limit" is the ceiling when no
    usage entry has the resource identifier "limit"; when some have, it is
    the value of the last of them. *)
Theorem ceiling_sample (path : string) (usage : list AwsLimitUsage)
    (limit : Z) (region : string) (w : World) :
  let w' := snd (update_service path usage limit region w) in
  let p := normalize_path path in
  (Forall (fun u => metric_type u <> "limit") usage ->
   sample_of w' p (base_labels region "limit") = Some limit) /\
  (forall before u after,
     usage = before ++ u :: after ->
     metric_type u = "limit" ->
     Forall (fun u' => metric_type u' <> "limit") after ->
     sample_of w' p (base_labels region "limit") = Some (get_value u)).
Proof.
  cbv zeta. split.
  - intros Hnone. rewrite update_service_sample.
    unfold service_writes.
    rewrite (last_write_head _ limit); [done|].
    by apply usage_writes_elsewhere.
  - intros before u after -> Hu Hafter. rewrite update_service_sample.
    unfold service_writes. rewrite map_app. cbn [map]. rewrite Hu.
    rewrite app_comm_cons, last_write_last; [done|].
    by apply usage_writes_elsewhere.
Qed.

Lemma ceiling_sample_witness :
  let plain := [mkUsage 3 None; mkUsage 4 (Some "vol-1")] in
  let odd := [mkUsage 3 (Some "limit"); mkUsage 9 (Some "limit"); mkUsage 4 None] in
  sample_of (snd (update_service "EBS.Volumes" plain 50 "us-east-1" empty_world))
            (normalize_path "EBS.Volumes") (base_labels "us-east-1" "limit")
    = Some 50 /\
  sample_of (snd (update_service "EBS.Volumes" odd 50 "us-east-1" empty_world))
            (normalize_path "EBS.Volumes") (base_labels "us-east-1" "limit")
    = Some 9.
Proof.
  intros plain odd.
  destruct (ceiling_sample "EBS.Volumes" plain 50 "us-east-1" empty_world)
    as [Hplain _].
  destruct (ceiling_sample "EBS.Volumes" odd 50 "us-east-1" empty_world)
    as [_ Hodd].
  split.
  - apply Hplain. repeat constructor; vm_compute; discriminate.
  - apply (Hodd [mkUsage 3 (Some "limit")] (mkUsage 9 (Some "limit"))
                [mkUsage 4 None]).
    + reflexivity.
    + vm_compute. reflexivity.
    + repeat constructor; vm_compute; discriminate.
Defined.

Lemma last_write_app kw ws1 ws2 :
  last_write kw (ws1 ++ ws2) =
  match last_write kw ws2 with
  | Some v => Some v
  | None => last_write kw ws1
  end.
Proof.
  unfold last_write at 1. rewrite fold_left_app.
  fold (last_write kw ws1). apply last_write_from.
Qed.

(** X7.  Two paths with the same normalisation are one gauge.  Writing a
    limit under the second path after a limit under the first creates no
    gauge and changes no other gauge; every sample of the shared gauge ends
    at the last write of the two limits taken one after the other, so the
    second ceiling replaces the first. *)
Theorem colliding_paths_share_gauge (path1 path2 : string)
    (usage1 usage2 : list AwsLimitUsage) (limit1 limit2 : Z)
    (region : string) (w : World) :
  normalize_path path1 = normalize_path path2 ->
  let p := normalize_path path1 in
  let w1 := snd (update_service path1 usage1 limit1 region w) in
  let w2 := snd (update_service path2 usage2 limit2 region w1) in
  dom (gauges w2) = dom (gauges w1) /\
  same_elsewhere p w1 w2 /\
  forall kw,
    sample_of w2 p kw =
    match last_write kw (service_writes region usage1 limit1 ++
                         service_writes region usage2 limit2) with
    | Some v => Some v
    | None => sample_of w p kw
    end.
Proof.
  intros Hsame. cbv zeta. split; [|split].
  - rewrite (update_service_run path2). cbn [snd].
    unfold with_gauges. cbn [gauges].
    rewrite dom_alter_L.
    destruct (update_service_registers path1 usage1 limit1 region w) as [g Hg].
    unfold gauge_in. rewrite <- Hsame. by rewrite Hg.
  - unfold same_elsewhere. rewrite (update_service_run path2). cbn [snd].
    unfold with_gauges. cbn [gauges].
    rewrite Hsame. by rewrite alter_elsewhere, gauge_in_elsewhere.
  - intros kw. rewrite Hsame at 1. rewrite update_service_sample, <- Hsame.
    rewrite update_service_sample, last_write_app.
    by destruct (last_write kw (service_writes region usage2 limit2)).
Qed.

Lemma colliding_paths_share_gauge_witness :
  let w1 := snd (update_service "ELB.Active load-balancers" [] 20 "us-east-1"
                                empty_world) in
  let w2 := snd (update_service "ELB.Active load balancers" [] 35 "us-east-1"
                                w1) in
  normalize_path "ELB.Active load-balancers"
    = normalize_path "ELB.Active load balancers" /\
  dom (gauges w2) = dom (gauges w1) /\
  sample_of w2 (normalize_path "ELB.Active load-balancers")
            (base_labels "us-east-1" "limit") = Some 35.
Proof.
  intros w1 w2.
  assert (Hn : normalize_path "ELB.Active load-balancers"
               = normalize_path "ELB.Active load balancers")
    by (vm_compute; reflexivity).
  destruct (colliding_paths_share_gauge
              "ELB.Active load-balancers" "ELB.Active load balancers"
              [] [] 20 35 "us-east-1" empty_world Hn) as (Hdom & _ & Hs).
  split; [exact Hn|]. split; [exact Hdom|]. subst w1 w2.
  rewrite (Hs (base_labels "us-east-1" "limit")). vm_compute. reflexivity.
Defined.

(** ** The on-demand group *)

Lemma ec2_labels_type region t t' it :
  t <> t' -> ec2_labels region t it <> ec2_labels region t' it.
Proof. intros Hne. unfold ec2_labels. intros [= ->]. done. Qed.

Lemma current_writes_elsewhere region it (usage : list AwsLimitUsage) :
  Forall (fun w : write => fst w <> ec2_labels region "limit" it)
         (map (fun resource =>
                 (ec2_labels region "current" it, get_value resource))
              usage).
Proof.
  induction usage as [|u usage IH]; constructor; [|exact IH].
  cbn. by apply ec2_labels_type.
Qed.

Lemma update_ec2_single_sample region name l it w kw :
  instance_type_of name = inr it ->
  sample_of (snd (update_ec2_on_demand region {[ name := l ]} w)) ec2_path kw =
  match last_write kw (ec2_writes region it l) with
  | Some v => Some v
  | None => sample_of w ec2_path kw
  end.
Proof.
  intros Hit. rewrite (update_ec2_on_demand_single region name l it w Hit).
  unfold sample_of, with_gauges. cbn [snd gauges].
  destruct (gauge_in_registered ec2_path (Some ["instance_type"]) (gauges w))
    as [g Hg].
  rewrite normalize_ec2_path in Hg.
  rewrite lookup_alter_eq, Hg.
  cbn [fmap option_fmap option_map mbind option_bind].
  rewrite set_all_samples.
  pose proof (gauge_in_samples ec2_path (Some ["instance_type"]) (gauges w) g)
    as Hs.
  rewrite normalize_ec2_path in Hs. rewrite (Hs Hg).
  unfold samples_at. by destruct (gauges w !! ec2_path).
Qed.

(** X8.  All the usage entries of an on-demand limit are written to one
    sample.  For a group of one limit with an instance type, the sample
    under type "limit" is the ceiling of the limit, and the sample under
    type "current" is the value of its last usage entry; it keeps its
    former value when the limit has no usage entry. *)
Theorem on_demand_usage_overwrites (region name : string) (l : AwsLimit)
    (it : string) (w : World) :
  instance_type_of name = inr it ->
  let w' := snd (update_ec2_on_demand region {[ name := l ]} w) in
  sample_of w' ec2_path (ec2_labels region "limit" it) = Some (get_limit l) /\
  sample_of w' ec2_path (ec2_labels region "current" it) =
  match last (get_current_usage l) with
  | Some resource => Some (get_value resource)
  | None => sample_of w ec2_path (ec2_labels region "current" it)
  end.
Proof.
  intros Hit. cbv zeta. rewrite !(update_ec2_single_sample _ _ _ it) by done.
  unfold ec2_writes. split.
  - rewrite last_write_head; [done | apply current_writes_elsewhere].
  - destruct (last (get_current_usage l)) as [u|] eqn:El.
    + apply last_Some in El as [us ->]. rewrite map_app. cbn [map].
      rewrite app_comm_cons, last_write_last; [done | constructor].
    + apply last_None in El as ->. cbn [map].
      rewrite last_write_none; [done|].
      constructor; [|constructor]. cbn. by apply ec2_labels_type.
Qed.

Lemma on_demand_usage_overwrites_witness :
  let l := mkLimit 20 [mkUsage 3 (Some "i-1"); mkUsage 8 (Some "i-2")] in
  let w' := snd (update_ec2_on_demand "us-east-1"
                   {[ "Running On-Demand m5.large instances" := l ]}
                   empty_world) in
  instance_type_of "Running On-Demand m5.large instances" = inr "m5.large" /\
  sample_of w' ec2_path (ec2_labels "us-east-1" "limit" "m5.large") = Some 20 /\
  sample_of w' ec2_path (ec2_labels "us-east-1" "current" "m5.large") = Some 8.
Proof.
  intros l w'.
  assert (Hit : instance_type_of "Running On-Demand m5.large instances"
                = inr "m5.large") by (vm_compute; reflexivity).
  destruct (on_demand_usage_overwrites "us-east-1"
              "Running On-Demand m5.large instances" l "m5.large" empty_world
              Hit) as [Hl Hc].
  split; [exact Hit|]. split; [exact Hl | exact Hc].
Defined.

Global Instance same_elsewhere_refl p : Reflexive (same_elsewhere p).
Proof. by intros w. Qed.

Global Instance same_elsewhere_trans p : Transitive (same_elsewhere p).
Proof. intros a b c Hab Hbc. unfold same_elsewhere in *. congruence. Qed.

Lemma labels_set_elsewhere p kw v : always (same_elsewhere p) (labels_set p kw v).
Proof. intros w. unfold same_elsewhere. cbn. apply alter_elsewhere. Qed.

Lemma update_ec2_on_demand_elsewhere region limits w :
  same_elsewhere ec2_path w (snd (update_ec2_on_demand region limits w)).
Proof.
  unfold update_ec2_on_demand.
  destruct (decide (limits = ∅)); [reflexivity|].
  unfold bind at 1, gauge.
  pose proof (gauge_in_fst ec2_path (Some ["instance_type"]) (gauges w)) as Hfst.
  pose proof (gauge_in_elsewhere ec2_path (Some ["instance_type"]) (gauges w))
    as Hels.
  destruct (gauge_in ec2_path (Some ["instance_type"]) (gauges w))
    as [g gs1] eqn:Eg.
  cbn [fst snd] in *. rewrite normalize_ec2_path in Hfst, Hels. subst g.
  transitivity (with_gauges (fun _ => gs1) w); [exact Hels|].
  apply always_for_each; [apply _ | apply _ |]. intros entry.
  step_always; apply labels_set_elsewhere.
Qed.

(** X9.  A limit of the on-demand group without instance type hides the
    rest of its service.  The translation of the service stops in the
    on-demand group with StopIteration: the limits of the general group are
    not written, and every gauge other than the on-demand gauge is as it
    was.  Whatever the group holds, the on-demand group never touches
    another gauge than its own. *)
Theorem malformed_name_skips_service (region service : string)
    (svc_limits : gmap string AwsLimit) (name : string) (l : AwsLimit)
    (w : World) :
  (forall limits,
     same_elsewhere ec2_path w (snd (update_ec2_on_demand region limits w))) /\
  (svc_limits !! name = Some l ->
   contains "on-demand" (lower name) = true ->
   instance_type_of name = inl StopIteration ->
   update_one_service region service svc_limits w =
     update_ec2_on_demand region (ec2_instances_limits svc_limits) w /\
   fst (update_one_service region service svc_limits w) = inl StopIteration /\
   same_elsewhere ec2_path w
     (snd (update_one_service region service svc_limits w))).
Proof.
  split; [intros limits; apply update_ec2_on_demand_elsewhere|].
  intros Hl Hod Hbad.
  assert (Hraise : fst (update_ec2_on_demand region
                          (ec2_instances_limits svc_limits) w)
                   = inl StopIteration).
  { apply (update_ec2_on_demand_raises region _ name l); [|exact Hbad].
    by apply ec2_instances_limits_lookup. }
  assert (Hsame : update_one_service region service svc_limits w =
                  update_ec2_on_demand region (ec2_instances_limits svc_limits) w).
  { unfold update_one_service, bind.
    destruct (update_ec2_on_demand region (ec2_instances_limits svc_limits) w)
      as [[e|[]] w1]; [reflexivity | discriminate]. }
  split; [exact Hsame|]. rewrite Hsame. split; [exact Hraise|].
  apply update_ec2_on_demand_elsewhere.
Qed.

Lemma malformed_name_skips_service_witness :
  let ec2 : gmap string AwsLimit :=
    {[ "Running On-Demand All F instances" := mkLimit 8 [];
       "Elastic IPs (VPC)" := mkLimit 5 [mkUsage 1 None] ]} in
  let w' := snd (update_one_service "us-east-1" "EC2" ec2 empty_world) in
  fst (update_one_service "us-east-1" "EC2" ec2 empty_world)
    = inl StopIteration /\
  same_elsewhere ec2_path empty_world w' /\
  gauges w' !! normalize "EC2" "Elastic IPs (VPC)" = None.
Proof.
  intros ec2 w'.
  destruct (malformed_name_skips_service "us-east-1" "EC2" ec2
              "Running On-Demand All F instances" (mkLimit 8 []) empty_world)
    as [_ Hskip].
  destruct Hskip as (_ & Hraise & Hels);
    [vm_compute; reflexivity | vm_compute; reflexivity
    | vm_compute; reflexivity |].
  split; [exact Hraise|]. split; [exact Hels|].
  assert (Hne : ec2_path <> normalize "EC2" "Elastic IPs (VPC)")
    by (vm_compute; discriminate).
  rewrite <- (lookup_delete_ne (gauges w') ec2_path _ Hne).
  subst w'. rewrite Hels. rewrite lookup_delete_ne by exact Hne.
  vm_compute. reflexivity.
Defined.

(** ** Normalised paths *)





(** ** Reading the configuration *)

Lemma join_split sep s : join (String sep EmptyString) (split sep s) = s.
Proof.
  induction s as [|c r IH]; [reflexivity|]. cbn [split].
  pose proof (split_not_nil sep r) as Hne.
  destruct (Ascii.eqb c sep) eqn:Ec.
  - apply Ascii.eqb_eq in Ec as ->.
    destruct (split sep r) as [|f fs]; [done|].
    cbn [join]. cbn [join] in IH. by rewrite <- IH.
  - destruct (split sep r) as [|f fs]; [done|].
    destruct fs as [|f' fs]; cbn [join] in *; [by rewrite IH|].
    by rewrite <- IH.
Qed.

Lemma split_fields_clean sep s :
  Forall (fun f => has_char sep f = false) (split sep s).
Proof.
  induction s as [|c r IH]; [by repeat constructor|]. cbn [split].
  destruct (Ascii.eqb c sep) eqn:Ec; [by constructor|].
  pose proof (split_not_nil sep r) as Hne.
  destruct (split sep r) as [|f fs]; [done|].
  apply Forall_cons in IH as [Hf Hfs]. constructor; [|exact Hfs].
  by rewrite has_char_cons, Hf, Ascii.eqb_sym, Ec.
Qed.

Lemma index_exn {A} (l : list A) i e : index l i = inl e -> e = IndexError.
Proof. unfold index. destruct (nth_error l i); [done|]. by intros [= <-]. Qed.

Lemma init_exn item e :
  Limit_Override_init item = inl e -> e = IndexError \/ e = ValueError.
Proof.
  unfold Limit_Override_init.
  repeat match goal with
  | |- and_then (index ?l ?i) _ = _ -> _ =>
      destruct (index l i) eqn:?; cbn [and_then];
      [intros [= <-]; left; by eapply index_exn|]
  end.
  destruct (int _) eqn:Ei; cbn [and_then]; [|done].
  intros [= <-]. right. by eapply int_exn.
Qed.

Lemma collect_exn lines acc e :
  collect_overrides lines acc = inl e -> e = IndexError \/ e = ValueError.
Proof.
  revert acc. induction lines as [|item lines IH]; intros acc; [done|].
  cbn [collect_overrides]. destruct (contains "=" item); [|apply IH].
  destruct (Limit_Override_init item) eqn:Ei; cbn [and_then]; [|apply IH].
  intros [= <-]. by eapply init_exn.
Qed.

(** X11.  What [_get_configs] gives.  It returns exactly when the port and
    the interval are integers and every qualifying override line is
    accepted, and then: the regions are never an empty list, none of them
    contains a comma, and joined by commas they are the regions text again,
    so nothing is trimmed.  A port that is not an integer raises ValueError
    before anything else is looked at, then the interval does; the only
    exceptions are ValueError and IndexError. *)
Theorem get_configs_result (cfg : ConfigTexts) :
  (forall port interval regions overrides,
     _get_configs cfg = inr (port, interval, regions, overrides) <->
     int (port_text cfg) = inr port /\
     int (interval_text cfg) = inr interval /\
     regions = split "," (regions_text cfg) /\
     parse_overrides (overrides_text cfg) = inr overrides) /\
  split "," (regions_text cfg) <> [] /\
  Forall (fun r => contains "," r = false) (split "," (regions_text cfg)) /\
  join "," (split "," (regions_text cfg)) = regions_text cfg /\
  (forall e, int (port_text cfg) = inl e -> _get_configs cfg = inl ValueError) /\
  (forall port e, int (port_text cfg) = inr port ->
     int (interval_text cfg) = inl e -> _get_configs cfg = inl ValueError) /\
  (forall e, _get_configs cfg = inl e -> e = ValueError \/ e = IndexError).
Proof.
  unfold _get_configs.
  split; [|split; [|split; [|split; [|split; [|split]]]]].
  - intros port interval regions overrides.
    destruct (int (port_text cfg)) as [e1|p]; cbn [and_then].
    { split; [done | by intros [? _]]. }
    destruct (int (interval_text cfg)) as [e2|i]; cbn [and_then].
    { split; [done | by intros (_ & ? & _)]. }
    destruct (parse_overrides (overrides_text cfg)) as [e3|o]; cbn [and_then].
    { split; [done | by intros (_ & _ & _ & ?)]. }
    split.
    + by intros [= <- <- <- <-].
    + by intros ([= <-] & [= <-] & -> & [= <-]).
  - apply split_not_nil.
  - apply split_fields_clean.
  - apply join_split.
  - intros e He. rewrite He. cbn. by rewrite (int_exn _ _ He).
  - intros port e Hp He. rewrite Hp, He. cbn. by rewrite (int_exn _ _ He).
  - intros e.
    destruct (int (port_text cfg)) as [e1|p] eqn:E1; cbn [and_then].
    { intros [= <-]. left. by eapply int_exn. }
    destruct (int (interval_text cfg)) as [e2|i] eqn:E2; cbn [and_then].
    { intros [= <-]. left. by eapply int_exn. }
    destruct (parse_overrides (overrides_text cfg)) as [e3|o] eqn:E3;
      cbn [and_then]; [|done].
    intros [= <-]. unfold parse_overrides in E3.
    destruct (collect_exn _ _ _ E3); auto.
Qed.

Lemma get_configs_result_witness :
  let cfg := mkConfigTexts "8080" "x" "us-east-1, us-west-2," "" in
  int (port_text cfg) = inr 8080 /\
  _get_configs cfg = inl ValueError /\
  _get_configs (mkConfigTexts "80 80" "1800" "us-east-1" "") = inl ValueError /\
  split "," (regions_text cfg) = ["us-east-1"; " us-west-2"; ""].
Proof.
  intros cfg.
  destruct (get_configs_result cfg) as (_ & _ & _ & _ & _ & Hinterval & _).
  destruct (get_configs_result (mkConfigTexts "80 80" "1800" "us-east-1" ""))
    as (_ & _ & _ & _ & Hport & _).
  assert (Hp : int (port_text cfg) = inr 8080) by (vm_compute; reflexivity).
  split; [exact Hp|]. split.
  - apply (Hinterval 8080 ValueError Hp). vm_compute. reflexivity.
  - split; [|vm_compute; reflexivity].
    apply (Hport ValueError). vm_compute. reflexivity.
Defined.

(** ** The fields of an accepted override *)

Lemma split_app_prefix sep a b i d :
  (Datatypes.S i < length (split sep a))%nat ->
  nth i (split sep (a +:+ b)) d = nth i (split sep a) d.
Proof.
  revert i. induction a as [|c a IH]; intros i Hi; [cbn in Hi; lia|].
  change (String c a +:+ b) with (String c (a +:+ b)).
  cbn [split] in *. destruct (Ascii.eqb c sep).
  - destruct i as [|i]; [reflexivity|]. cbn [nth length] in *.
    apply IH. lia.
  - pose proof (split_not_nil sep a) as Hne.
    pose proof (split_not_nil sep (a +:+ b)) as Hne'.
    destruct (split sep a) as [|f fs] eqn:Ea; [done|].
    destruct (split sep (a +:+ b)) as [|f' fs'] eqn:Eab; [done|].
    cbn [length] in Hi.
    destruct i as [|i].
    + cbn [nth]. f_equal. apply (IH 0%nat). cbn. lia.
    + cbn [nth]. apply (IH (Datatypes.S i)). cbn. lia.
Qed.

Lemma split_first_prefix sep1 sep2 s f fs i d :
  split sep1 s = f :: fs ->
  (Datatypes.S i < length (split sep2 f))%nat ->
  nth i (split sep2 s) d = nth i (split sep2 f) d.
Proof.
  intros Hs Hi. destruct (split_first_field sep1 s) as (f' & fs' & Hs' & Hf).
  rewrite Hs in Hs'. injection Hs' as <- <-.
  destruct Hf as [->|[r ->]]; [done|]. by apply split_app_prefix.
Qed.

Lemma has_char_fields c sep s :
  has_char c s = false -> Forall (fun f => has_char c f = false) (split sep s).
Proof.
  induction s as [|d r IH]; intros Hs; [by repeat constructor|].
  rewrite has_char_cons in Hs. apply orb_false_elim in Hs as [Hd Hr].
  specialize (IH Hr). cbn [split].
  destruct (Ascii.eqb d sep); [by constructor|].
  pose proof (split_not_nil sep r) as Hne.
  destruct (split sep r) as [|f fs]; [done|].
  apply Forall_cons in IH as [Hf Hfs]. constructor; [|exact Hfs].
  by rewrite has_char_cons, Hd, Hf.
Qed.

Lemma Forall_nth_lt {A} (P : A -> Prop) l i d :
  Forall P l -> (i < length l)%nat -> P (nth i l d).
Proof.
  intros Hl Hi. rewrite Forall_forall in Hl. apply Hl.
  apply list_elem_of_In. by apply nth_In.
Qed.

Lemma index_inr {A} (l : list A) i x d :
  index l i = inr x -> (i < length l)%nat /\ x = nth i l d.
Proof.
  unfold index. destruct (nth_error l i) as [y|] eqn:E; [|done].
  intros [= <-]. split.
  - apply nth_error_Some. by rewrite E.
  - by rewrite (nth_error_nth _ _ d E).
Qed.

(** X12.  What an accepted override is made of.  When the constructor
    accepts a line, the line contains an equals sign, the text before the
    first one has three parts or more, and region, service and limit name
    are the first three of them: none of the three contains a slash or an
    equals sign; the value is the integer read between the first equals
    sign and the next. *)
Theorem accepted_override_fields (item : string) (o : Limit_Override) :
  Limit_Override_init item = inr o ->
  let parts := split "/" (before_equals item) in
  contains "=" item = true /\
  (3 <= length parts)%nat /\
  region o = nth 0 parts EmptyString /\
  service o = nth 1 parts EmptyString /\
  limit_name o = nth 2 parts EmptyString /\
  int (after_equals item) = inr (value o) /\
  Forall (fun field => contains "/" field = false /\ contains "=" field = false)
         [region o; service o; limit_name o].
Proof.
  intros Ho. cbv zeta. unfold before_equals, after_equals.
  unfold Limit_Override_init in Ho.
  destruct (index (split "/" item) 0) as [|r] eqn:E0; [done|].
  destruct (index (split "/" item) 1) as [|s] eqn:E1; [done|].
  destruct (index (split "=" item) 0) as [|before] eqn:E2; [done|].
  cbn [and_then] in Ho.
  destruct (index (split "/" before) 2) as [|l] eqn:E3; [done|].
  destruct (index (split "=" item) 1) as [|after] eqn:E4; [done|].
  cbn [and_then] in Ho.
  destruct (int after) as [|n] eqn:E5; [done|].
  cbn [and_then] in Ho. injection Ho as <-. cbn [region service limit_name value].
  apply (index_inr _ _ _ EmptyString) in E0 as [_ ->].
  apply (index_inr _ _ _ EmptyString) in E1 as [_ ->].
  apply (index_inr _ _ _ EmptyString) in E2 as [_ ->].
  apply (index_inr _ _ _ EmptyString) in E3 as [H3 ->].
  apply (index_inr _ _ _ EmptyString) in E4 as [H4 ->].
  destruct (split "=" item) as [|before fields] eqn:Heq; [cbn in H4; lia|].
  cbn [nth] in *.
  pose proof (split_first_clean "=" item) as Hclean. rewrite Heq in Hclean.
  assert (Hr : nth 0 (split "/" item) EmptyString
               = nth 0 (split "/" before) EmptyString)
    by (apply (split_first_prefix "=" "/" item before fields); [done | lia]).
  assert (Hs : nth 1 (split "/" item) EmptyString
               = nth 1 (split "/" before) EmptyString)
    by (apply (split_first_prefix "=" "/" item before fields); [done | lia]).
  rewrite Hr, Hs.
  cbn [length] in H4.
  split; [apply split_length_has_char; rewrite Heq; cbn [length]; lia|].
  split; [lia|]. do 3 (split; [reflexivity|]). split; [exact E5|].
  pose proof (split_fields_clean "/" before) as Hslash.
  pose proof (has_char_fields "=" "/" before Hclean) as Hequals.
  repeat constructor;
    first [ apply (Forall_nth_lt _ _ _ _ Hslash); lia
          | apply (Forall_nth_lt _ _ _ _ Hequals); lia ].
Qed.

Lemma accepted_override_fields_witness :
  let item := "eu-west-1/RDS/DB instances/extra= 12 =junk" in
  let o := mkOverride "eu-west-1" "RDS" "DB instances" 12 in
  Limit_Override_init item = inr o /\
  contains "=" item = true /\
  int (after_equals item) = inr 12.
Proof.
  intros item o.
  assert (Ho : Limit_Override_init item = inr o) by (vm_compute; reflexivity).
  destruct (accepted_override_fields item o Ho) as (Hq & _ & _ & _ & _ & Hv & _).
  split; [exact Ho|]. split; [exact Hq | exact Hv].
Defined.

(** ** The checkers [main] starts with *)

Lemma dict_set_keys {V} (d : list (string * V)) k v :
  map fst (dict_set d k v) =
  if decide (k ∈ map fst d) then map fst d else map fst d ++ [k].
Proof.
  induction d as [|[k' v'] d IH]; [reflexivity|]. cbn [dict_set map fst].
  destruct (String.eqb_spec k' k) as [->|Hne].
  - cbn [map fst]. rewrite decide_True; [done | apply list_elem_of_here].
  - cbn [map fst]. rewrite IH.
    destruct (decide (k ∈ map fst d)) as [Hin|Hout].
    + rewrite decide_True; [done | by apply list_elem_of_further].
    + rewrite decide_False; [done|].
      intros [Heq|Hin]%elem_of_cons; [by subst | done].
Qed.

Lemma dict_set_values {V} (P : string * V -> Prop) (d : list (string * V)) k v :
  Forall P d -> P (k, v) -> Forall P (dict_set d k v).
Proof.
  intros Hd Hkv. induction Hd as [|[k' v'] d Hx Hd IH]; [by repeat constructor|].
  cbn [dict_set]. destruct (String.eqb k' k); by constructor.
Qed.

Section StartupFacts.

Context {C : Type} `{AwsLimitCheckerSetup C}.

Lemma startup_from_keys (overrides : list Limit_Override) regions
    (d : list (string * C)) :
  let d' := fold_left (fun d r => dict_set d r (seeded overrides r)) regions d in
  (NoDup (map fst d) -> NoDup (map fst d')) /\
  (forall r, r ∈ map fst d' <-> r ∈ map fst d \/ r ∈ regions) /\
  (NoDup (map fst d ++ regions) -> map fst d' = map fst d ++ regions) /\
  (Forall (fun e => snd e = seeded overrides (fst e)) d ->
   Forall (fun e => snd e = seeded overrides (fst e)) d').
Proof.
  cbv zeta. revert d. induction regions as [|r regions IH]; intros d.
  - cbn. rewrite app_nil_r. split; [done|]. split; [|done].
    intros r. rewrite elem_of_nil. tauto.
  - cbn [fold_left].
    destruct (IH (dict_set d r (seeded overrides r))) as (Hnd & Hin & Heq & Hval).
    rewrite dict_set_keys in Hnd, Hin, Heq.
    split; [|split; [|split]].
    + intros Hd. apply Hnd. case_decide as Hr; [done|].
      apply NoDup_app. split; [done|]. split; [|apply NoDup_singleton].
      intros x Hx ->%list_elem_of_singleton. done.
    + intros x. rewrite Hin, elem_of_cons.
      case_decide as Hr.
      * split; [tauto|]. intros [?|[->|?]]; tauto.
      * rewrite elem_of_app, list_elem_of_singleton. tauto.
    + intros Hd. apply NoDup_app in Hd as (Hd1 & Hd2 & Hd3).
      rewrite decide_False in Heq.
      * rewrite Heq, <- app_assoc; [done|].
        rewrite <- app_assoc. apply NoDup_app. split; [done|]. split; [|done].
        exact Hd2.
      * intros Hr. apply (Hd2 r Hr). apply list_elem_of_here.
    + intros Hd. apply Hval. by apply dict_set_values.
Qed.

Lemma apply_overrides_other region0 (overrides1 overrides2 : list Limit_Override)
    o (c : C) :
  region o <> region0 ->
  apply_overrides region0 (overrides1 ++ o :: overrides2) c =
  apply_overrides region0 (overrides1 ++ overrides2) c.
Proof.
  intros Hne. unfold apply_overrides. rewrite !List.filter_app. cbn [List.filter].
  by apply String.eqb_neq in Hne as ->.
Qed.

Lemma fold_left_ext_in {A B} (f g : A -> B -> A) (l : list B) a :
  (forall x y, y ∈ l -> f x y = g x y) -> fold_left f l a = fold_left g l a.
Proof.
  revert a. induction l as [|y l IH]; intros a Hfg; [reflexivity|].
  cbn [fold_left]. rewrite Hfg by apply list_elem_of_here.
  apply IH. intros x z Hz. apply Hfg. by apply list_elem_of_further.
Qed.

(** X13.  The checkers [main] starts with.  There is one checker for every
    configured region, regions named twice counting once; when no region is
    named twice the checkers come in the order of the configuration.  The
    checker of a region is a new checker on which the overrides of that
    region, and no other, have been set in the order the set gives them.
    An override for a region that is not configured changes nothing. *)
Theorem startup_checkers (regions : list string)
    (overrides : list Limit_Override) :
  NoDup (map fst (startup (C := C) regions overrides)) /\
  (forall r, r ∈ map fst (startup (C := C) regions overrides) <-> r ∈ regions) /\
  (NoDup regions -> map fst (startup (C := C) regions overrides) = regions) /\
  (forall r c, (r, c) ∈ startup regions overrides ->
     c = seeded overrides r) /\
  (forall overrides1 overrides2 o,
     overrides = overrides1 ++ o :: overrides2 ->
     region o ∉ regions ->
     startup (C := C) regions overrides =
     startup regions (overrides1 ++ overrides2)).
Proof.
  destruct (startup_from_keys overrides regions []) as (Hnd & Hin & Heq & Hval).
  cbn [map app] in *. fold (startup (C := C) regions overrides) in *.
  split; [apply Hnd, NoDup_nil_2|]. split; [|split; [exact Heq|split]].
  - intros r. rewrite Hin, elem_of_nil. tauto.
  - intros r c Hrc. specialize (Hval (Forall_nil_2 _)).
    rewrite Forall_forall in Hval. exact (Hval (r, c) Hrc).
  - intros overrides1 overrides2 o -> Hout. unfold startup.
    apply fold_left_ext_in. intros d r Hr. f_equal.
    unfold seeded. apply apply_overrides_other. by intros <-.
Qed.

End StartupFacts.

Lemma startup_checkers_witness :
  let overrides :=
    [mkOverride "us-east-1" "EC2" "Elastic IPs" 10;
     mkOverride "eu-west-1" "RDS" "DB instances" 40;
     mkOverride "us-east-1" "S3" "Buckets" 200] in
  let regions := ["us-east-1"; "us-west-2"] in
  NoDup regions /\
  map fst (startup (C := Seeding) regions overrides) = regions /\
  startup (C := Seeding) regions overrides =
    [("us-east-1",
      ("us-east-1", [("EC2", "Elastic IPs", 10); ("S3", "Buckets", 200)]));
     ("us-west-2", ("us-west-2", []))] /\
  startup (C := Seeding) regions overrides =
  startup regions
    [mkOverride "us-east-1" "EC2" "Elastic IPs" 10;
     mkOverride "us-east-1" "S3" "Buckets" 200].
Proof.
  intros overrides regions.
  assert (Hnd : NoDup regions).
  { repeat constructor; rewrite ?elem_of_cons, ?elem_of_nil;
      intros Hx; repeat destruct Hx as [Hx|Hx]; try discriminate; done. }
  destruct (startup_checkers (C := Seeding) regions overrides)
    as (_ & _ & Hkeys & _ & Hother).
  split; [exact Hnd|]. split; [exact (Hkeys Hnd)|].
  split; [vm_compute; reflexivity|].
  apply (Hother [mkOverride "us-east-1" "EC2" "Elastic IPs" 10]
                [mkOverride "us-east-1" "S3" "Buckets" 200]
                (mkOverride "eu-west-1" "RDS" "DB instances" 40)).
  - reflexivity.
  - cbn [region]. unfold regions. rewrite !elem_of_cons, elem_of_nil.
    intros Hx; repeat destruct Hx as [Hx|Hx]; try discriminate; done.
Defined.

(** ** The order of emission *)

Global Instance key_le_total {V} : Total (@key_le V).
Proof. intros a b. unfold key_le. apply String.leb_total. Qed.


(** ** The whole of [main] *)

Section Main.

Context {C : Type} `{AwsLimitChecker C} `{AwsLimitCheckerSetup C}.


End Main.

